(** * Retrieval engine and conversation-flow state machine

  A shallow embedding of the algorithmic core of the document-aware chat
  assistant: the chunkers ([index_functions.chunk_text],
  [document_processor.hierarchical_chunking]), cosine-similarity search and
  index construction ([index_functions]), and the stage machine of
  [conversation_flow].  Python values are modelled as follows:

  - [int] is [Z]; [str] is [string] (ids, prompts, paths) or [list ascii]
    (document text, which is only sliced and measured);
  - [dict] is a [gmap]; a dict whose iteration order reaches the outside
    (completion criteria) is an association list;
  - [None] is [None]; an attribute that may hold [None] has an option type;
  - a raised exception is the [Raise] constructor of [result];
  - numpy's [float64] is the kernel's binary64 [float]; [np.argsort], whose
    default kind is not stable, is any function that returns the rows in
    ascending order of their keys;
  - the remote completion and embedding services, the file system and the
    environment are oracles collected in a record. *)

From stdpp Require Import gmap strings list sorting pretty.
From Stdlib Require Import ZArith Floats Lia Ascii.

Open Scope Z_scope.

(* ===================================================================== *)
(** ** Python builtins used by the sources *)
(* ===================================================================== *)

Module Py.

(** Exceptions the modelled code can raise. *)
Inductive exn :=
| ValueError (msg : string)
| AttributeError (msg : string)
| OSError (msg : string)
| ServiceError (msg : string).

Inductive result (A : Type) :=
| Ok (a : A)
| Raise (e : exn).
Arguments Ok {A} a.
Arguments Raise {A} e.

Definition bind {A B} (m : result A) (k : A → result B) : result B :=
  match m with
  | Ok a => k a
  | Raise e => Raise e
  end.

(** [for x in xs: ...] where the body may raise: the first exception ends
    the loop. *)
Fixpoint for_each {A B} (body : A → result B) (xs : list A)
  : result (list B) :=
  match xs with
  | [] => Ok []
  | x :: rest =>
      bind (body x) (λ b, bind (for_each body rest) (λ bs, Ok (b :: bs)))
  end.

(** [len(s)] *)
Definition len {A} (s : list A) : Z := Z.of_nat (length s).

(** A slice bound brought into [0, n], as [PySlice_AdjustIndices] does for
    a step of one: a negative bound counts from the end. *)
Definition adjust (n i : Z) : Z :=
  if i <? 0 then Z.max (i + n) 0 else Z.min i n.

(** [s[i:j]] *)
Definition slice {A} (s : list A) (i j : Z) : list A :=
  let lo := adjust (len s) i in
  let hi := adjust (len s) j in
  take (Z.to_nat (hi - lo)) (drop (Z.to_nat lo) s).

(** [s[i:]] *)
Definition slice_from {A} (s : list A) (i : Z) : list A :=
  drop (Z.to_nat (adjust (len s) i)) s.

(** [s[::-1]] *)
Definition reversed {A} (s : list A) : list A := reverse s.

(** Number of elements of [range(start, stop, step)] for [step ≠ 0]. *)
Definition range_len (start stop step : Z) : Z :=
  if 0 <? step then
    if start <? stop then (stop - start - 1) / step + 1 else 0
  else
    if stop <? start then (start - stop - 1) / (- step) + 1 else 0.

Definition range_step_zero : exn :=
  ValueError "range() arg 3 must not be zero".

(** [range(start, stop, step)], which raises [ValueError] on a zero step. *)
Definition range (start stop step : Z) : result (list Z) :=
  if step =? 0 then Raise range_step_zero
  else Ok (map (λ k : nat, start + Z.of_nat k * step)
               (seq 0 (Z.to_nat (range_len start stop step)))).

(** [enumerate(xs)] *)
Definition enumerate {A} (xs : list A) : list (Z * A) :=
  imap (λ i x, (Z.of_nat i, x)) xs.

(** Truth value of a [str]. *)
Definition truthy (s : string) : bool :=
  match s with EmptyString => false | _ => true end.

(** Truth value of a value that is [None] or a [str]. *)
Definition truthy_opt (o : option string) : bool :=
  match o with Some s => truthy s | None => false end.

(** [str.isspace] on one character (code points below 256). *)
Definition is_space (c : ascii) : bool :=
  let n := nat_of_ascii c in
  ((9 <=? n)%nat && (n <=? 13)%nat) || ((28 <=? n)%nat && (n <=? 32)%nat)
  || (n =? 133)%nat || (n =? 160)%nat.

Fixpoint lstrip (s : string) : string :=
  match s with
  | String c rest => if is_space c then lstrip rest else s
  | EmptyString => EmptyString
  end.

(** [s.rstrip()]: a character is dropped when it is white space and
    everything after it was dropped. *)
Fixpoint rstrip (s : string) : string :=
  match s with
  | String c rest =>
      match rstrip rest with
      | EmptyString => if is_space c then EmptyString else String c EmptyString
      | r => String c r
      end
  | EmptyString => EmptyString
  end.

(** [s.strip()] *)
Definition strip (s : string) : string := rstrip (lstrip s).

(** [s.startswith(p)] *)
Fixpoint startswith (s p : string) : bool :=
  match p, s with
  | EmptyString, _ => true
  | String a p', String b s' => if ascii_dec a b then startswith s' p' else false
  | String _ _, EmptyString => false
  end.

(** [s.split(sep, 1)] for a one-character separator: one part when the
    separator does not occur, else the text before and after its first
    occurrence. *)
Fixpoint split_once (sep : ascii) (s : string) : list string :=
  match s with
  | EmptyString => [EmptyString]
  | String c rest =>
      if ascii_dec c sep then [EmptyString; rest]
      else match split_once sep rest with
           | [a] => [String c a]
           | a :: more => String c a :: more
           | [] => []
           end
  end.

(** [x in xs] for a list of strings. *)
Definition contains (xs : list string) (x : string) : bool :=
  bool_decide (x ∈ xs).

(** [s.split(sep)] for a one-character separator: the pieces between the
    occurrences of the separator, one piece more than there are
    occurrences. *)
Fixpoint split (sep : ascii) (s : string) : list string :=
  match s with
  | EmptyString => [EmptyString]
  | String c rest =>
      if ascii_dec c sep then EmptyString :: split sep rest
      else match split sep rest with
           | a :: more => String c a :: more
           | [] => [String c EmptyString]
           end
  end.

(** [s[n:]] and [s[:n]] on a [str], for [n ≥ 0]. *)
Fixpoint str_drop (n : nat) (s : string) : string :=
  match n, s with
  | S m, String _ rest => str_drop m rest
  | _, _ => s
  end.

(** A string of white space only. *)
Definition all_space (s : string) : Prop :=
  Forall (λ c, is_space c = true) (String.list_ascii_of_string s).

End Py.

(* ===================================================================== *)
(** ** Chunkers: [index_functions.chunk_text] and
    [document_processor.hierarchical_chunking] *)
(* ===================================================================== *)

Module Chunker.
Import Py.

(** Document text: a sequence of characters. *)
Definition text := list ascii.

(** [index_functions.chunk_text(text, chunk_size=500, overlap=100)] *)
Definition chunk_text (t : text) (chunk_size overlap : Z) : result (list text) :=
  bind (range 0 (len t) (chunk_size - overlap)) (λ offsets,
    Ok (filter (λ chunk, ¬ len chunk < 50)
               (map (λ i, slice t i (i + chunk_size)) offsets))).

(** One entry of the list [hierarchical_chunking] returns: a dict with the
    keys [text], [level], [index] and, on level 1 only, [parent_index]. *)
Record chunk := Chunk {
  chunk_body : text;
  chunk_level : Z;
  chunk_index : Z;
  chunk_parent_index : option Z;
}.

(** The level-1 entries cut from one level-0 chunk: the inner loop of
    [hierarchical_chunking], [i] being the position of the parent. *)
Definition small_chunks (i : Z) (large_chunk : text) (size1 overlap1 : Z)
  : result (list chunk) :=
  bind (range 0 (len large_chunk) (size1 - overlap1)) (λ offsets,
    Ok (omap (λ j,
          let small_chunk := slice large_chunk j (j + size1) in
          if bool_decide (len small_chunk < size1 / 4) then None
          else Some (Chunk small_chunk 1 j (Some i)))
        offsets)).

(** [document_processor.hierarchical_chunking(text, chunk_sizes=(1000, 500),
    overlaps=(100, 50))] *)
Definition hierarchical_chunking (t : text) (chunk_sizes overlaps : Z * Z)
  : result (list chunk) :=
  match t with
  | [] => Ok []
  | _ =>
    bind (range 0 (len t) (chunk_sizes.1 - overlaps.1)) (λ offsets,
      let level_0_chunks :=
        filter (λ c, ¬ len c < chunk_sizes.1 / 4)
               (map (λ i, slice t i (i + chunk_sizes.1)) offsets) in
      bind (for_each
              (λ '(i, large_chunk),
                 bind (small_chunks i large_chunk chunk_sizes.2 overlaps.2)
                      (λ smalls, Ok (Chunk large_chunk 0 i None :: smalls)))
              (enumerate level_0_chunks))
           (λ groups, Ok (concat groups)))
  end.

(** The chunker contract in the words of the specification: the windows
    [text[i : i + size]] at the offsets [0, step, 2·step, …] below the
    length of the text, of which those of at least [threshold] characters
    are kept. *)
Definition window_offsets (n step : nat) : list nat :=
  filter (λ i, (i mod step = 0)%nat) (seq 0 n).

Definition window (t : text) (size i : nat) : text := take size (drop i t).

Definition spec_windows (t : text) (size step threshold : nat)
  : list (nat * text) :=
  filter (λ w, (threshold ≤ length w.2)%nat)
         (map (λ i, (i, window t size i)) (window_offsets (length t) step)).

Definition spec_chunks (t : text) (size step threshold : nat) : list text :=
  (spec_windows t size step threshold).*2.

(** The hierarchical variant in the same words: the level-0 windows of the
    text, each followed by the level-1 windows of its own characters, which
    record their offset and the position of their parent. *)
Definition spec_hierarchy (t : text) (size0 step0 size1 step1 : nat)
  : list chunk :=
  concat (imap
    (λ i large,
       Chunk large 0 (Z.of_nat i) None
       :: map (λ w, Chunk w.2 1 (Z.of_nat w.1) (Some (Z.of_nat i)))
              (spec_windows large size1 step1 (size1 / 4)))
    (spec_chunks t size0 step0 (size0 / 4))).

(** A text of sixty characters, shorter than a quarter of the default chunk
    size and longer than the fixed minimum of [chunk_text]. *)
Definition sixty_chars : text := replicate 60 "a"%char.

End Chunker.

(* ===================================================================== *)
(** ** numpy: the array operations of [cosine_similarity] and
    [search_index] *)
(* ===================================================================== *)

Module Numpy.
Import Py.

(** The scalar arithmetic an array computes with: the program runs on
    [float64]. *)
Class Arith (F : Type) := {
  zero : F;
  add : F → F → F;
  mul : F → F → F;
  div : F → F → F;
  sqrt : F → F;
}.

#[export] Instance binary64 : Arith float := {
  zero := 0%float;
  add := PrimFloat.add;
  mul := PrimFloat.mul;
  div := PrimFloat.div;
  sqrt := PrimFloat.sqrt;
}.

Section Arrays.
Context {F : Type} `{Arith F}.

(** [np.dot] of two vectors of one length: products summed from the left.
    numpy leaves the order of the additions to its BLAS.  The sums that are
    evaluated below have at most one term that is not zero, or overflow, or
    hold a NaN, and are the same in every order; no other statement depends
    on the last bit of a sum. *)
Definition dot (a b : list F) : F :=
  foldl (λ acc p, add acc (mul p.1 p.2)) zero (zip a b).

(** [np.linalg.norm] of a vector: the root of the sum of squares. *)
Definition norm (a : list F) : F := sqrt (dot a a).

Definition shapes_not_aligned : exn := ValueError "shapes not aligned".
Definition axis_out_of_bounds : exn :=
  ValueError "axis 1 is out of bounds for array of dimension 1".

(** [index_functions.cosine_similarity(query_embedding, document_embeddings)]
    for a vector and a table of rows.  [np.dot] raises when a row and the
    query differ in length, and [norm(..., axis=1)] when the table has no
    row (it is then an array of one dimension). *)
Definition cosine_similarity (query_embedding : list F)
    (document_embeddings : list (list F)) : result (list F) :=
  let query_norm := norm query_embedding in
  let query_normalized := map (λ x, div x query_norm) query_embedding in
  if bool_decide (Forall (λ row, length row = length query_embedding)
                         document_embeddings) then
    let dot_products :=
      map (λ row, dot row query_normalized) document_embeddings in
    match document_embeddings with
    | [] => Raise axis_out_of_bounds
    | _ =>
      let doc_norms := map norm document_embeddings in
      let similarities := zip_with div dot_products doc_norms in
      Ok similarities
    end
  else Raise shapes_not_aligned.

End Arrays.

(** The order numpy sorts [float64] by: [a < b], with every NaN after every
    number. *)
Definition float_lt (a b : float) : bool :=
  (a <? b)%float || (negb (b =? b)%float && (a =? a)%float).

Section Argsort.
Context {K : Type} (lt : K → K → bool).

(** Row [i] is not below row [j]: its key is not the lower one. *)
Definition not_below (keys : list K) (i j : nat) : Prop :=
  ∃ a b, keys !! i = Some a ∧ keys !! j = Some b ∧ lt a b = false.

(** What numpy promises of [np.argsort(keys)] with its default kind: the
    result holds every row once, in ascending order of the keys.  The
    default sort is not stable: of rows with equal keys nothing is said. *)
Definition sorts (argsort : list K → list nat) : Prop :=
  ∀ keys, argsort keys ≡ₚ seq 0 (length keys)
          ∧ StronglySorted (flip (not_below keys)) (argsort keys).

(** Two sorts that keep this promise, by insertion of (row, key) pairs.
    The first puts a new pair behind every pair whose key is not greater,
    so that rows with equal keys stay in row order (a stable sort); the
    second puts it ahead of every pair whose key is not lower, so that rows
    with equal keys end in reverse row order. *)
Fixpoint insert (x : nat * K) (sorted : list (nat * K)) : list (nat * K) :=
  match sorted with
  | [] => [x]
  | y :: rest => if lt x.2 y.2 then x :: y :: rest else y :: insert x rest
  end.

Fixpoint insert_first (x : nat * K) (sorted : list (nat * K))
  : list (nat * K) :=
  match sorted with
  | [] => [x]
  | y :: rest => if lt y.2 x.2 then y :: insert_first x rest else x :: y :: rest
  end.

Definition argsort_by (ins : nat * K → list (nat * K) → list (nat * K))
    (keys : list K) : list nat :=
  (foldl (λ sorted x, ins x sorted) [] (imap pair keys)).*1.

Definition stable_argsort : list K → list nat := argsort_by insert.
Definition reversing_argsort : list K → list nat := argsort_by insert_first.

(** [np.argsort(similarities)[-top_k:][::-1]], for the [np.argsort] at
    hand. *)
Definition top_indices (argsort : list K → list nat) (similarities : list K)
    (top_k : Z) : list nat :=
  reversed (slice_from (argsort similarities) (- top_k)).

(** The order of the pairs in an ascending sort: by key. *)
Definition key_le (x y : nat * K) : Prop := lt y.2 x.2 = false.

End Argsort.

(** What makes a comparison a strict weak order: the keys fall into
    classes of equal keys, and the classes are in line. *)
Class StrictWeakOrder {K : Type} (lt : K → K → bool) := {
  lt_irreflexive : ∀ a, lt a a = false;
  lt_transitive : ∀ a b c, lt a b = true → lt b c = true → lt a c = true;
  lt_incomparable : ∀ a b c, lt a b = false → lt b c = false → lt a c = false;
}.

(** [float_lt] on the IEEE 754 form of its arguments. *)
Definition sf_lt (x y : spec_float) : bool :=
  SFltb x y || (negb (SFeqb y y) && SFeqb x x).

(** A place on a line for every [float64] value, such that [float_lt]
    compares places: NaN last, the infinities outside the finite values,
    the two zeros together. *)
Definition rank (x : spec_float) : Z * Z * Z :=
  match x with
  | S754_nan => (3, 0, 0)
  | S754_infinity false => (2, 0, 0)
  | S754_finite false m e => (1, e, Z.pos m)
  | S754_zero _ => (0, 0, 0)
  | S754_finite true m e => (-1, - e, - Z.pos m)
  | S754_infinity true => (-2, 0, 0)
  end.

Definition lex_lt (a b : Z * Z * Z) : Prop :=
  a.1.1 < b.1.1
  ∨ (a.1.1 = b.1.1 ∧ (a.1.2 < b.1.2 ∨ (a.1.2 = b.1.2 ∧ a.2 < b.2))).

(** Classes of [float64] values, read off their IEEE 754 form: the zeros,
    and what a sum of products with a zero row stays in. *)
Definition is_zero_class (x : spec_float) : Prop :=
  match x with
  | S754_zero _ => True
  | _ => False
  end.

Definition zero_or_nan (x : spec_float) : Prop :=
  match x with
  | S754_zero _ | S754_nan => True
  | _ => False
  end.

(** The vector of the standard basis of dimension [n] with its one at
    position [i]. *)
Definition basis (n i : nat) : list float :=
  (λ j, if bool_decide (j = i) then 1%float else 0%float) <$> seq 0 n.

End Numpy.

(* ===================================================================== *)
(** ** The outside world *)
(* ===================================================================== *)

Module World.
Import Py.

(** What [client.chat.complete(...)] gives back: the content of the first
    choice, or a failure (the call raised, there was no choice, the content
    was not a string). *)
Inductive reply :=
| Content (s : string)
| Failure (why : string).

(** A completion client: the prompt of the single user message to the
    reply.  Nothing is assumed about it; it need not be the same service
    from one call to the next, a caller passes the client of its choice. *)
Definition Client := string → reply.

(** What a call leaves behind besides its result. *)
Inductive event :=
| LogError (msg : string)
| LogWarning (msg : string)
| LogInfo (msg : string)
| UiError (msg : string)
| UiWarning (msg : string)
| ChatComplete (prompt : string)
| EmbeddingsCreate (inputs : list (list ascii))
| WriteFile (path : string).

(** [config.json] as [helper_functions.load_config] meets it: the file is
    there; or it is missing and can be created; or it is missing and cannot
    be created. *)
Inductive config_file :=
| ConfigPresent
| ConfigMissing
| ConfigBlocked.

(** [load_config()]: a file that is there is read (one that cannot be
    parsed gives the default configuration); a missing file is created with
    the default configuration, and the [open] that does so stands outside
    any [try]. *)
Definition load_config (c : config_file) : result unit * list event :=
  match c with
  | ConfigPresent => (Ok tt, [])
  | ConfigMissing => (Ok tt, [WriteFile "config.json"])
  | ConfigBlocked => (Raise (OSError "config.json"), [])
  end.

Definition consults_service (e : event) : bool :=
  match e with ChatComplete _ => true | _ => false end.

(** A call that never reached the completion service. *)
Definition silent (log : list event) : Prop :=
  Forall (λ e, consults_service e = false) log.

End World.

(* ===================================================================== *)
(** ** conversation_flow.py *)
(* ===================================================================== *)

Module Flow.
Import Py World.

Record ConversationStage := {
  stage_id : string;
  name : string;
  system_prompt : string;
  user_prompt : option string;
  next_stages : list string;
  completion_criteria : list (string * string);
  max_turns : Z;
}.

Record ConversationFlow := {
  flow_id : string;
  flow_name : string;
  description : string;
  initial_stage : option string;
  stages : gmap string ConversationStage;
}.

Record ConversationState := {
  state_flow_id : option string;
  current_stage_id : option string;
  completed_stages : list string;
  stage_turns : gmap (option string) Z;
  data : gmap string string;
}.

(** A JSON object read back by [from_dict]: a key may be missing. *)
Record StageData := {
  data_stage_id : option string;
  data_name : option string;
  data_system_prompt : option string;
  data_user_prompt : option string;
  data_next_stages : option (list string);
  data_completion_criteria : option (list (string * string));
  data_max_turns : option Z;
}.

Record FlowData := {
  data_flow_id : option string;
  data_flow_name : option string;
  data_description : option string;
  data_initial_stage : option string;
  data_stages : option (gmap string StageData);
}.

(** [ConversationStage.from_dict] *)
Definition stage_from_dict (d : StageData) : ConversationStage := {|
  stage_id := default "" (data_stage_id d);
  name := default "" (data_name d);
  system_prompt := default "" (data_system_prompt d);
  user_prompt := Some (default "" (data_user_prompt d));
  next_stages := default [] (data_next_stages d);
  completion_criteria := default [] (data_completion_criteria d);
  max_turns := default 3 (data_max_turns d);
|}.

(** [ConversationFlow.from_dict]: every stage of the data is stored under
    its key; no reference between stages is looked at. *)
Definition flow_from_dict (d : FlowData) : ConversationFlow := {|
  flow_id := default "" (data_flow_id d);
  flow_name := default "" (data_flow_name d);
  description := default "" (data_description d);
  initial_stage := Some (default "" (data_initial_stage d));
  stages := stage_from_dict <$> default ∅ (data_stages d);
|}.

(** [ConversationFlow.add_stage] *)
Definition add_stage (flow : ConversationFlow) (stage : ConversationStage)
  : ConversationFlow := {|
  flow_id := flow_id flow;
  flow_name := flow_name flow;
  description := description flow;
  initial_stage := initial_stage flow;
  stages := <[stage_id stage := stage]> (stages flow);
|}.

(** [ConversationFlow.get_stage]: [self.stages.get(stage_id)] *)
Definition get_stage (flow : ConversationFlow) (id : option string)
  : option ConversationStage :=
  match id with
  | Some k => stages flow !! k
  | None => None
  end.

(** [ConversationState.advance_stage] *)
Definition advance_stage (st : ConversationState) (new_stage_id : string)
  : ConversationState := {|
  state_flow_id := state_flow_id st;
  current_stage_id := Some new_stage_id;
  completed_stages :=
    match current_stage_id st with
    | Some cur => if truthy cur then completed_stages st ++ [cur]
                  else completed_stages st
    | None => completed_stages st
    end;
  stage_turns := <[Some new_stage_id := 0]> (stage_turns st);
  data := data st;
|}.

(** [ConversationState.increment_turns] *)
Definition increment_turns (st : ConversationState) : ConversationState := {|
  state_flow_id := state_flow_id st;
  current_stage_id := current_stage_id st;
  completed_stages := completed_stages st;
  stage_turns :=
    match stage_turns st !! current_stage_id st with
    | Some n => <[current_stage_id st := n + 1]> (stage_turns st)
    | None => <[current_stage_id st := 1]> (stage_turns st)
    end;
  data := data st;
|}.

(** [get_mistral_client]: the environment's [MISTRAL_API_KEY] decides
    whether there is a client. *)
Definition get_mistral_client (api_key : string) (remote : Client)
  : option Client * list event :=
  if truthy api_key then (Some remote, [])
  else (None, [LogError "Missing API key"]).

(** [if client is None: client = get_mistral_client()], the opening of both
    entry points. *)
Definition resolve_client (api_key : string) (remote : Client)
    (client : option Client) : option Client * list event :=
  match client with
  | Some c => (Some c, [])
  | None => get_mistral_client api_key remote
  end.

Definition nl : string := String "010"%char "".
Definition dquote : string := String "034"%char "".

(** The prompt [check_stage_completion] sends. *)
Definition completion_prompt (stage : ConversationStage)
    (user_message : string) : string :=
  let head :=
    nl +:+ "    You are evaluating if a conversation has met the completion criteria for a stage." +:+ nl
    +:+ "    " +:+ nl
    +:+ "    Conversation stage: " +:+ name stage +:+ nl
    +:+ "    " +:+ nl
    +:+ "    User's message: " +:+ dquote +:+ user_message +:+ dquote +:+ nl
    +:+ "    " +:+ nl
    +:+ "    Completion criteria:" +:+ nl
    +:+ "    " in
  let criteria :=
    foldl (λ prompt '(criterion, description),
             prompt +:+ "- " +:+ criterion +:+ ": " +:+ description +:+ nl)
          head (completion_criteria stage) in
  criteria +:+ nl
  +:+ "    Based on the user's message, determine if the completion criteria have been met." +:+ nl
  +:+ "    If the criteria have been met, respond with " +:+ dquote +:+ "COMPLETE: next_stage_id" +:+ dquote +:+ " where next_stage_id is the ID of the next stage." +:+ nl
  +:+ "    If the criteria have not been met, respond with " +:+ dquote +:+ "INCOMPLETE" +:+ dquote +:+ "." +:+ nl
  +:+ "    If the criteria have been partially met but more information is needed, respond with " +:+ dquote +:+ "INCOMPLETE" +:+ dquote +:+ "." +:+ nl
  +:+ "    " +:+ nl
  +:+ "    Response format:" +:+ nl
  +:+ "    COMPLETE: [next_stage_id] or INCOMPLETE" +:+ nl
  +:+ "    ".

(** The parse of a reply that starts with [COMPLETE]: the id after the first
    colon, checked against the declared next stages. *)
Definition parse_complete (stage : ConversationStage) (result : string)
  : bool * option string :=
  let parts := split_once ":" result in
  let next_stage_id :=
    if bool_decide (1 < length parts)%nat then strip <$> parts !! 1%nat
    else None in
  let fallback :=
    match next_stages stage with
    | first :: _ => (true, Some first)
    | [] => (true, None)
    end in
  match next_stage_id with
  | Some id =>
      if truthy id && contains (next_stages stage) id then (true, Some id)
      else fallback
  | None => fallback
  end.

(** [conversation_state.stage_turns.get(stage.stage_id, 0)] *)
Definition turns_in (stage : ConversationStage) (st : ConversationState) : Z :=
  default 0 (stage_turns st !! Some (stage_id stage)).

(** [check_stage_completion(stage, user_message, conversation_state,
    client=None)]: the verdict and the events of the call. *)
Definition check_stage_completion (api_key : string) (remote : Client)
    (stage : ConversationStage) (user_message : string)
    (conversation_state : ConversationState) (client : option Client)
  : (bool * option string) * list event :=
  let forced :=
    if bool_decide (max_turns stage ≤ turns_in stage conversation_state)
    then match next_stages stage with
         | [only] => Some only
         | _ => None
         end
    else None in
  match forced with
  | Some only => ((true, Some only), [])
  | None =>
    match completion_criteria stage with
    | [] => ((false, None), [])
    | _ =>
      let '(client, log) := resolve_client api_key remote client in
      match client with
      | None =>
          ((false, None),
           log ++ [LogError "Could not initialize Mistral client"])
      | Some c =>
          let prompt := completion_prompt stage user_message in
          match c prompt with
          | Content content =>
              let result := strip content in
              if startswith result "COMPLETE"
              then (parse_complete stage result, log ++ [ChatComplete prompt])
              else ((false, None), log ++ [ChatComplete prompt])
          | Failure why =>
              ((false, None),
               log ++ [ChatComplete prompt;
                       LogError ("Error checking stage completion: " +:+ why)])
          end
      end
    end
  end.

(** How a call of [process_conversation_turn] ends: it returns the system
    message ([None] after a logged error), or an exception leaves it. *)
Inductive outcome :=
| Returned (system_message : option string)
| Raised (e : exn).

Definition none_has_no_system_prompt : exn :=
  AttributeError "'NoneType' object has no attribute 'system_prompt'".

(** [process_conversation_turn(user_message, conversation_state,
    conversation_flow, client=None)].  The state object is updated in
    place: the second component is what it holds when the call ends,
    however it ends. *)
Definition process_conversation_turn (api_key : string) (remote : Client)
    (user_message : string) (conversation_state : ConversationState)
    (conversation_flow : ConversationFlow) (client : option Client)
  : outcome * ConversationState * list event :=
  let '(client, log) := resolve_client api_key remote client in
  match client with
  | None =>
      (Returned None, conversation_state,
       log ++ [LogError "Could not initialize Mistral client"])
  | Some c =>
    match get_stage conversation_flow (current_stage_id conversation_state) with
    | None =>
        (Returned None, conversation_state,
         log ++ [LogError "Invalid stage ID"])
    | Some current_stage =>
      let conversation_state := increment_turns conversation_state in
      let '((is_complete, next_stage_id), log') :=
        check_stage_completion api_key remote current_stage user_message
          conversation_state (Some c) in
      match is_complete, next_stage_id with
      | true, Some next =>
          if truthy next then
            let conversation_state := advance_stage conversation_state next in
            match get_stage conversation_flow (Some next) with
            | Some current_stage =>
                (Returned (Some (system_prompt current_stage)),
                 conversation_state, log ++ log')
            | None =>
                (Raised none_has_no_system_prompt,
                 conversation_state, log ++ log')
            end
          else (Returned (Some (system_prompt current_stage)),
                conversation_state, log ++ log')
      | _, _ =>
          (Returned (Some (system_prompt current_stage)),
           conversation_state, log ++ log')
      end
    end
  end.

(** The customer-support flow of [create_default_flows]. *)
Definition stage (id nm prompt : string) (next : list string)
    (criteria : list (string * string)) (turns : Z) : ConversationStage :=
  Build_ConversationStage id nm prompt None next criteria turns.

Definition greeting_stage : ConversationStage :=
  stage "greeting" "Greeting"
    "You are a customer support agent. Begin by greeting the customer warmly and asking how you can help them today. Remember to be polite, professional, and empathetic. This is the first stage of the customer support conversation."
    ["problem_identification"] [] 2.

Definition problem_stage : ConversationStage :=
  stage "problem_identification" "Problem Identification"
    "You are now in the problem identification stage. Ask specific questions to understand the customer's issue. Try to gather details about the problem such as when it started, what the customer was doing when it occurred, and any error messages they received. Your goal is to fully understand the problem before moving to solutions."
    ["solution_proposal"; "escalation"]
    [("problem_understanding", "The user has provided enough details about their problem");
     ("severity_assessment", "The severity/urgency of the problem is clear")]
    4.

Definition solution_stage : ConversationStage :=
  stage "solution_proposal" "Solution Proposal"
    "You are now in the solution proposal stage. Based on the problem identified, suggest one or more solutions to the customer. Explain the solutions clearly and guide the customer through any steps they need to take. Confirm whether the solution worked for them."
    ["resolution_confirmation"; "escalation"]
    [("solution_provided", "At least one solution has been suggested");
     ("customer_understanding", "The customer understands the proposed solution")]
    5.

Definition resolution_stage : ConversationStage :=
  stage "resolution_confirmation" "Resolution Confirmation"
    "You are now in the resolution confirmation stage. Confirm with the customer that their issue has been resolved. Ask if there's anything else they need help with. If they're satisfied, thank them for contacting support."
    ["closing"; "problem_identification"]
    [("problem_resolved", "The customer confirms their problem is resolved");
     ("satisfaction_confirmed", "The customer expresses satisfaction with the solution")]
    3.

Definition escalation_stage : ConversationStage :=
  stage "escalation" "Escalation"
    "You are now in the escalation stage. The issue requires specialized assistance. Explain to the customer that you'll need to escalate their issue to a specialist. Collect any additional information needed for the escalation, and provide the customer with an estimate of when they can expect a response."
    ["closing"] [] 3.

Definition closing_stage : ConversationStage :=
  stage "closing" "Closing"
    "You are now in the closing stage. Thank the customer for their time and patience. Provide any final instructions or information they might need. Let them know how they can get back in touch if they have further questions or issues in the future."
    [] [] 2.

Definition customer_flow : ConversationFlow :=
  foldl add_stage
    (Build_ConversationFlow "customer_support" "Customer Support Conversation"
       "A structured flow for handling customer support inquiries"
       (Some "greeting") ∅)
    [greeting_stage; problem_stage; solution_stage; resolution_stage;
     escalation_stage; closing_stage].

(** The state the chat pages start a flow with. *)
Definition start_state (flow : ConversationFlow) : ConversationState := {|
  state_flow_id := Some (flow_id flow);
  current_stage_id := initial_stage flow;
  completed_stages := [];
  stage_turns := {[ initial_stage flow := 0 ]};
  data := ∅;
|}.

(** A caller feeding one message after the other to
    [process_conversation_turn], each with the client of its choice, on the
    one state object (which keeps what a call did to it even when the call
    raised). *)
Fixpoint run_turns (api_key : string) (remote : Client)
    (flow : ConversationFlow) (inputs : list (string * option Client))
    (st : ConversationState) : ConversationState :=
  match inputs with
  | [] => st
  | (user_message, client) :: rest =>
      run_turns api_key remote flow rest
        (process_conversation_turn api_key remote user_message st flow client).1.2
  end.

(** A flow file with one stage, whose only next stage is not in the file. *)
Definition dangling_data : FlowData := {|
  data_flow_id := Some "dangling";
  data_flow_name := Some "Dangling reference";
  data_description := None;
  data_initial_stage := Some "intro";
  data_stages := Some {[ "intro" := {|
    data_stage_id := Some "intro";
    data_name := Some "Introduction";
    data_system_prompt := Some "Introduce yourself.";
    data_user_prompt := None;
    data_next_stages := Some ["ghost"];
    data_completion_criteria := None;
    data_max_turns := Some 1;
  |} ]};
|}.

(** Scripted services: one that never finds a stage complete, and one
    that finds every stage complete and names a next stage. *)
Definition always_incomplete : Client := λ _, Content "INCOMPLETE".
Definition complete_into (id : string) : Client :=
  λ _, Content (" COMPLETE: " +:+ id +:+ " ").

(** The customer-support conversation after its first message. *)
Definition after_first_turn : ConversationState :=
  run_turns "key" always_incomplete customer_flow
    [("Hello", Some always_incomplete)] (start_state customer_flow).

(** The same conversation further on, waiting in the resolution stage
    after the greeting, problem and solution stages have been completed. *)
Definition in_resolution : ConversationState :=
  run_turns "key" always_incomplete customer_flow
    [("Hello", None);
     ("It does not start", None);
     ("Since this morning, it is urgent", Some (complete_into "solution_proposal"));
     ("I see, I will try that", Some (complete_into "resolution_confirmation"))]
    (start_state customer_flow).

(** A conversation that has reached the closing stage. *)
Definition in_closing : ConversationState := {|
  state_flow_id := Some "customer_support";
  current_stage_id := Some "closing";
  completed_stages := ["greeting"; "problem_identification"; "escalation"];
  stage_turns := {[ Some "closing" := 7 ]};
  data := ∅;
|}.

(** The dict [ConversationState.to_dict] builds and [from_dict] reads: a
    key may be missing, and the two ids may be [None]. *)
Record StateData := {
  data_state_flow_id : option (option string);
  data_current_stage_id : option (option string);
  data_completed_stages : option (list string);
  data_stage_turns : option (gmap (option string) Z);
  data_data : option (gmap string string);
}.

(** [ConversationState.to_dict] *)
Definition state_to_dict (st : ConversationState) : StateData := {|
  data_state_flow_id := Some (state_flow_id st);
  data_current_stage_id := Some (current_stage_id st);
  data_completed_stages := Some (completed_stages st);
  data_stage_turns := Some (stage_turns st);
  data_data := Some (data st);
|}.

(** [ConversationState.from_dict] *)
Definition state_from_dict (d : StateData) : ConversationState := {|
  state_flow_id := default (Some "") (data_state_flow_id d);
  current_stage_id := default (Some "") (data_current_stage_id d);
  completed_stages := default [] (data_completed_stages d);
  stage_turns := default ∅ (data_stage_turns d);
  data := default ∅ (data_data d);
|}.

(** A flow without dangling reference: every next stage of every stage is
    a stage of the flow. *)
Definition flow_closed (flow : ConversationFlow) : Prop :=
  map_Forall (λ _ s, Forall (λ next, is_Some (stages flow !! next))
                            (next_stages s))
             (stages flow).

End Flow.

(* ===================================================================== *)
(** ** index_functions.py: the resident index, its construction and search *)
(* ===================================================================== *)

Module Index.
Import Py World Chunker Numpy.

(** The metadata dict of one chunk; [None] is a key that is not there. *)
Record Meta := {
  meta_path : option string;
  meta_filename : option string;
  meta_chunk_level : option Z;
  meta_chunk_index : option Z;
  meta_parent_index : option (option Z);
}.

Definition empty_meta : Meta := Build_Meta None None None None None.

Definition meta_truthy (m : Meta) : bool :=
  match m with
  | Build_Meta None None None None None => false
  | _ => true
  end.

(** The module-level [index] dict. *)
Record index := {
  documents : list text;
  embeddings : option (list (list float));
  id_to_path : gmap nat string;
  id_to_metadata : gmap nat Meta;
  summaries : gmap string string;
  keywords : gmap string (list string);
  initialized : bool;
}.

Definition initial_index : index := {|
  documents := [];
  embeddings := None;
  id_to_path := ∅;
  id_to_metadata := ∅;
  summaries := ∅;
  keywords := ∅;
  initialized := false;
|}.

(** The file system, the environment, the remote services and the numpy
    at hand, as the indexing code meets them.  [summarize_text] and
    [extract_keywords] are what the two document-processor calls of that
    name return for a text they send to the service; [disk_writable] and
    [summary_writable] say whether [index.pkl] and [index_summary.json] can
    be written. *)
Record Env := {
  is_dir : string → bool;
  files_under : string → list string;
  api_key : string;
  config : config_file;
  extract_text_from_file : string → option text;
  summarize_text : text → option string;
  extract_keywords : text → list string;
  embeddings_create : list text → result (list (list float));
  np_argsort : list float → list nat;
  disk_writable : bool;
  summary_writable : bool;
}.

(** [Path(p).name] for a path that does not end in a separator. *)
Fixpoint path_name_from (current : string) (p : string) : string :=
  match p with
  | EmptyString => current
  | String c rest =>
      if ascii_dec c "/" then path_name_from "" rest
      else path_name_from (current +:+ String c "") rest
  end.
Definition path_name (p : string) : string := path_name_from "" p.

(** The dict [process_document] returns. *)
Record Doc := {
  doc_path : string;
  doc_filename : string;
  doc_text : text;
  doc_summary : string;
  doc_keywords : list string;
  doc_chunks : list chunk;
  doc_processed : bool;
}.

(** [summarize_text(text, client)] and [extract_keywords(text, client)] as
    [process_document] calls them, with a client and the default minimum
    lengths: a short text is answered at once; for a longer one
    [load_config()] runs first, outside the [try] of the call, so that its
    exception leaves the call; what happens inside the [try] is the
    oracle's. *)
Definition summary_of (env : Env) (t : text) : result (option string) :=
  if bool_decide (len t < 500) then Ok None
  else bind (load_config (config env)).1 (λ _, Ok (summarize_text env t)).

Definition keywords_of (env : Env) (t : text) : result (list string) :=
  if bool_decide (len t < 200) then Ok []
  else bind (load_config (config env)).1 (λ _, Ok (extract_keywords env t)).

(** [document_processor.process_document(file_path, client)] with a client
    at hand.  An exception of one of its steps is caught: the dict is
    returned as far as it was filled, with [processed] left [False]. *)
Definition process_document (env : Env) (file_path : string) : Doc :=
  let doc_info := Build_Doc file_path (path_name file_path) [] "" [] [] false in
  match extract_text_from_file env file_path with
  | None | Some [] => doc_info
  | Some t =>
      match summary_of env t with
      | Raise _ => Build_Doc file_path (path_name file_path) t "" [] [] false
      | Ok summary =>
          let summary :=
            match summary with
            | Some s => if truthy s then s else ""
            | None => ""
            end in
          match keywords_of env t with
          | Raise _ =>
              Build_Doc file_path (path_name file_path) t summary [] [] false
          | Ok kws =>
              match hierarchical_chunking t (1000, 500) (100, 50) with
              | Ok chunks =>
                  Build_Doc file_path (path_name file_path) t summary kws
                            chunks true
              | Raise _ =>
                  Build_Doc file_path (path_name file_path) t summary kws
                            [] false
              end
          end
      end
  end.

(** [document_processor.process_documents_batch(file_paths)] *)
Definition process_documents_batch (env : Env) (file_paths : list string)
  : list Doc * list event :=
  match file_paths with
  | [] => ([], [])
  | _ =>
    if truthy (api_key env) then
      (filter (λ doc, doc_processed doc = true)
              (map (process_document env) file_paths), [])
    else ([], [LogError "Missing API key";
               LogError "Could not initialize Mistral client"])
  end.

(** One row of the lists [create_index] builds side by side: the text
    appended to [documents], the id appended to [file_paths] and the entry
    stored in [metadata] under that id. *)
Definition row : Type := text * string * Meta.

Definition chunk_id (path : string) (i : nat) : string :=
  path +:+ ":" +:+ pretty i.

(** Rows of one processed document (advanced processing). *)
Definition doc_rows (doc : Doc) : list row :=
  match doc_chunks doc with
  | [] =>
      [(doc_text doc, doc_path doc,
        Build_Meta (Some (doc_path doc)) (Some (doc_filename doc))
                   None None None)]
  | chunks =>
      imap (λ i c,
              (chunk_body c, chunk_id (doc_path doc) i,
               Build_Meta (Some (doc_path doc)) (Some (doc_filename doc))
                          (Some (chunk_level c)) (Some (chunk_index c))
                          (Some (chunk_parent_index c))))
           chunks
  end.

(** Rows of one file (traditional processing); an extraction that fails or
    gives no text contributes nothing. *)
Definition file_rows (env : Env) (file_path : string) : list row :=
  match extract_text_from_file env file_path with
  | None | Some [] => []
  | Some t =>
      match chunk_text t 500 100 with
      | Ok chunks =>
          imap (λ j c,
                  (c, chunk_id file_path j,
                   Build_Meta (Some file_path) (Some (path_name file_path))
                              None (Some (Z.of_nat j)) None))
               chunks
      | Raise _ => []
      end
  end.

(** The embedding loop: one request per batch of ten documents, the
    vectors concatenated in order; the first request that raises ends it. *)
Fixpoint embed_batches (env : Env) (batches : list (list text))
  : result (list (list float)) * list event :=
  match batches with
  | [] => (Ok [], [])
  | batch :: rest =>
      match embeddings_create env batch with
      | Raise e => (Raise e, [EmbeddingsCreate batch])
      | Ok vectors =>
          let '(r, log) := embed_batches env rest in
          (bind r (λ more, Ok (vectors ++ more)), EmbeddingsCreate batch :: log)
      end
  end.

Definition batches_of (docs : list text) : list (list text) :=
  match range 0 (len docs) 10 with
  | Ok offsets => map (λ i, slice docs i (i + 10)) offsets
  | Raise _ => []
  end.

(** [save_index(index_data)]: the pickle is written first and its summary
    second, in one [try]; the first write that fails ends the call, the
    failure is shown and [False] returned.  A summary that cannot be
    written leaves the pickle replaced. *)
Definition save_index (env : Env) (index_data : index) (disk : option index)
  : bool * option index * list event :=
  if disk_writable env then
    if summary_writable env then
      (true, Some index_data,
       [WriteFile "index.pkl"; WriteFile "index_summary.json"])
    else
      (false, Some index_data,
       [WriteFile "index.pkl"; UiError "Error saving index"])
  else (false, disk, [UiError "Error saving index"]).

(** [load_index()]: [index.update(loaded_index)] replaces every field, the
    pickle holding all of them. *)
Definition load_index (idx : index) (disk : option index) : bool * index :=
  match disk with
  | Some loaded => (true, loaded)
  | None => (false, idx)
  end.

(** The rows of a table that [np.array] takes: all of one length.  On
    rows of different lengths [np.array] raises [ValueError]. *)
Definition homogeneous (table : list (list float)) : Prop :=
  Forall (λ row, length row = length (default [] (head table))) table.

(** The index after [index["documents"] = documents] alone. *)
Definition with_documents (idx : index) (docs : list text) : index := {|
  documents := docs;
  embeddings := embeddings idx;
  id_to_path := id_to_path idx;
  id_to_metadata := id_to_metadata idx;
  summaries := summaries idx;
  keywords := keywords idx;
  initialized := initialized idx;
|}.

(** The first half of [create_index]: the rows gathered from the files,
    with the summaries and keywords of the processed documents. *)
Definition collect_rows (env : Env) (use_advanced_processing : bool)
    (files : list string)
  : list row * gmap string string * gmap string (list string) * list event :=
  if use_advanced_processing then
    let '(processed_docs, log) := process_documents_batch env files in
    (flat_map doc_rows processed_docs,
     foldl (λ m doc, if truthy (doc_summary doc)
                     then <[doc_path doc := doc_summary doc]> m else m)
           ∅ processed_docs,
     foldl (λ m doc, match doc_keywords doc with
                     | [] => m
                     | kws => <[doc_path doc := kws]> m
                     end)
           ∅ processed_docs,
     log)
  else (flat_map (file_rows env) files, ∅, ∅, []).

(** [create_index(directory_path, logger, use_advanced_processing=True)]:
    the resident index and the persisted one after the call, and the
    events of the call.  Once there are documents, [load_config()] runs
    (line 129; with advanced processing [config.json] may have been created
    before, by the [load_config()] of a summary or keyword call, and is then
    not written again), the batches are embedded, and the index is
    assigned field by field: [documents] first, then
    [np.array(all_embeddings)], which raises on rows of different lengths.
    All of this stands in one [try]. *)
Definition create_index (env : Env) (directory_path : string)
    (use_advanced_processing : bool) (idx : index) (disk : option index)
  : index * option index * list event :=
  if negb (is_dir env directory_path) then
    (idx, disk, [LogError "Directory not found"; UiError "Error: Directory not found"])
  else
    let start := [LogInfo "Creating index for directory"] in
    match files_under env directory_path with
    | [] =>
        (idx, disk,
         start ++ [LogWarning "No files found in directory";
                   UiWarning "No files found in the specified directory."])
    | files =>
        let '(rows, new_summaries, new_keywords, log) :=
          collect_rows env use_advanced_processing files in
        let docs := rows.*1.*1 in
        let file_paths := rows.*1.*2 in
        let metadata : gmap string Meta :=
          foldl (λ m r, <[r.1.2 := r.2]> m) ∅ rows in
        match docs with
        | [] =>
            (idx, disk,
             start ++ log
               ++ [LogWarning "No content extracted from files.";
                   UiWarning "No content could be extracted from the files."])
        | _ =>
            let failed :=
              [LogError "Error creating index"; UiError "Error creating index"] in
            let '(loaded, configured) := load_config (config env) in
            match loaded with
            | Raise _ => (idx, disk, start ++ log ++ configured ++ failed)
            | Ok _ =>
              let '(embedded, calls) := embed_batches env (batches_of docs) in
              match embedded with
              | Raise _ =>
                  (idx, disk, start ++ log ++ configured ++ calls ++ failed)
              | Ok all_embeddings =>
                  if bool_decide (homogeneous all_embeddings) then
                    let idx' := {|
                      documents := docs;
                      embeddings := Some all_embeddings;
                      id_to_path := map_seq 0 file_paths;
                      id_to_metadata :=
                        map_seq 0 (map (λ path,
                                          default empty_meta (metadata !! path))
                                       file_paths);
                      summaries := if use_advanced_processing then new_summaries
                                   else summaries idx;
                      keywords := if use_advanced_processing then new_keywords
                                  else keywords idx;
                      initialized := true;
                    |} in
                    let '(_, disk', saved) := save_index env idx' disk in
                    (idx', disk',
                     start ++ log ++ configured ++ calls ++ saved
                       ++ [LogInfo "Index created successfully"])
                  else
                    (with_documents idx docs, disk,
                     start ++ log ++ configured ++ calls ++ failed)
              end
            end
        end
    end.

(** The block [search_index] renders for one selected row; [None] when a
    lookup raises ([documents[idx]], [id_to_path[idx]]). *)
Definition context_entry (idx : index) (include_metadata : bool) (i : nat)
  : option string :=
  doc ← documents idx !! i;
  path_id ← id_to_path idx !! i;
  let base_path :=
    if bool_decide (":"%char ∈ String.list_ascii_of_string path_id)
    then default "" (head (split_once ":" path_id))
    else path_id in
  let metadata :=
    if include_metadata then default empty_meta (id_to_metadata idx !! i)
    else empty_meta in
  let summary := default "" (summaries idx !! base_path) in
  let kws := default [] (keywords idx !! base_path) in
  let section :=
    if meta_truthy metadata then
      match meta_chunk_level metadata with
      | Some _ =>
          " (Section "
          +:+ match meta_chunk_index metadata with
              | Some n => pretty n
              | None => "unknown"
              end
          +:+ ")"
      | None => ""
      end
    else "" in
  Some ("From " +:+ path_name base_path +:+ section +:+ ":" +:+ Flow.nl
        +:+ (if truthy summary
             then Flow.nl +:+ "SUMMARY: " +:+ summary +:+ Flow.nl else "")
        +:+ (match kws with
             | [] => ""
             | _ => Flow.nl +:+ "KEYWORDS: "
                    +:+ String.concat ", " kws +:+ Flow.nl
             end)
        +:+ Flow.nl +:+ "CONTENT: " +:+ String.string_of_list_ascii doc +:+ Flow.nl).

(** The rows [search_index] selects, best first, with the [np.argsort] at
    hand. *)
Definition top_rows (argsort : list float → list nat) (idx : index)
    (query_embedding : list float) (top_k : Z) : option (list nat) :=
  table ← embeddings idx;
  match cosine_similarity query_embedding table with
  | Ok similarities => Some (top_indices argsort similarities top_k)
  | Raise _ => None
  end.

(** [search_index(query, logger, top_k=3, include_metadata=True)]: the
    context string or [None], and the resident index after the call.
    Everything after the lazy load stands in one [try]; whatever keeps the
    query embedding from arriving (the [load_config()] of line 192, the
    request itself) ends in the same logged error. *)
Definition search_index (env : Env) (query : text) (top_k : Z)
    (include_metadata : bool) (idx : index) (disk : option index)
  : option string * index * list event :=
  let '(ready, idx) :=
    if initialized idx then (true, idx) else load_index idx disk in
  if negb ready then
    (None, idx, [LogWarning "Index not initialized. Please create an index first."])
  else
    let found :=
      match embeddings_create env [query] with
      | Ok (query_embedding :: _) =>
          rows ← top_rows (np_argsort env) idx query_embedding top_k;
          context ← mapM (context_entry idx include_metadata) rows;
          Some (String.concat Flow.nl context)
      | _ => None
      end in
    match found with
    | Some context => (Some context, idx, [EmbeddingsCreate [query]])
    | None => (None, idx, [EmbeddingsCreate [query]; LogError "Error searching index"])
    end.

(** The documents [create_index] gathers from the files of a directory. *)
Definition documents_found (env : Env) (use_advanced_processing : bool)
    (files : list string) : list text :=
  (collect_rows env use_advanced_processing files).1.1.1.*1.*1.

(** A file gives nothing to index when no text comes out of it. *)
Definition no_text (env : Env) (file_path : string) : Prop :=
  extract_text_from_file env file_path = None
  ∨ extract_text_from_file env file_path = Some [].

(** A file that advanced processing gives up: no text comes out of it, or
    its text has 200 characters or more, so that a summary or keyword call
    runs [load_config()], while [config.json] is missing and cannot be
    created. *)
Definition given_up (env : Env) (file_path : string) : Prop :=
  no_text env file_path
  ∨ (config env = ConfigBlocked
     ∧ ∃ t, extract_text_from_file env file_path = Some t ∧ 200 ≤ len t).

(** An index of three rows, as a build over one file leaves it, resident
    and persisted; the first two rows point the same way. *)
Definition resident : index := {|
  documents := [String.list_ascii_of_string "alpha";
                String.list_ascii_of_string "beta";
                String.list_ascii_of_string "gamma"];
  embeddings := Some [[1; 0]; [2; 0]; [0; 1]]%float;
  id_to_path := map_seq 0 ["notes.txt:0"; "notes.txt:1"; "notes.txt:2"];
  id_to_metadata := ∅;
  summaries := ∅;
  keywords := ∅;
  initialized := true;
|}.

(** A directory whose only file cannot be read, and one without files. *)
Definition unreadable : Env := {|
  is_dir := λ _, true;
  files_under := λ _, ["scans/page.bin"];
  api_key := "key";
  config := ConfigPresent;
  extract_text_from_file := λ _, None;
  summarize_text := λ _, None;
  extract_keywords := λ _, [];
  embeddings_create := λ batch, Ok (map (λ _, [1; 0]%float) batch);
  np_argsort := stable_argsort float_lt;
  disk_writable := true;
  summary_writable := true;
|}.

Definition deserted : Env := {|
  is_dir := λ _, true;
  files_under := λ _, [];
  api_key := "key";
  config := ConfigPresent;
  extract_text_from_file := λ _, None;
  summarize_text := λ _, None;
  extract_keywords := λ _, [];
  embeddings_create := λ batch, Ok (map (λ _, [1; 0]%float) batch);
  np_argsort := stable_argsort float_lt;
  disk_writable := true;
  summary_writable := true;
|}.

(** A directory of one file of sixty characters, with an embedding service
    that answers, and the same directory with the service out of reach. *)
Definition shelf : Env := {|
  is_dir := λ _, true;
  files_under := λ _, ["notes.txt"];
  api_key := "key";
  config := ConfigPresent;
  extract_text_from_file := λ _, Some sixty_chars;
  summarize_text := λ _, None;
  extract_keywords := λ _, [];
  embeddings_create := λ batch, Ok (map (λ _, [1; 0]%float) batch);
  np_argsort := stable_argsort float_lt;
  disk_writable := true;
  summary_writable := true;
|}.

Definition offline : Env := {|
  is_dir := λ _, true;
  files_under := λ _, ["notes.txt"];
  api_key := "key";
  config := ConfigPresent;
  extract_text_from_file := λ _, Some sixty_chars;
  summarize_text := λ _, None;
  extract_keywords := λ _, [];
  embeddings_create := λ _, Raise (ServiceError "unreachable");
  np_argsort := stable_argsort float_lt;
  disk_writable := true;
  summary_writable := true;
|}.

(** An index whose tables are in line: one embedding of dimension [dim]
    and one path for every document, and at least one document. *)
Definition aligned (idx : index) (dim : nat) : Prop :=
  ∃ table, embeddings idx = Some table
           ∧ table ≠ []
           ∧ length table = length (documents idx)
           ∧ Forall (λ row, length row = dim) table
           ∧ ∀ i, (i < length (documents idx))%nat → is_Some (id_to_path idx !! i).

End Index.

(* ===================================================================== *)
(** ** document_processor.py: summaries and keywords *)
(* ===================================================================== *)

Module DocumentProcessor.
Import Py World Chunker.

Definition summary_prompt (t : text) : string :=
  Flow.nl
  +:+ "        Please create a concise summary of the following text. " +:+ Flow.nl
  +:+ "        Focus on the key points, main ideas, and essential information." +:+ Flow.nl
  +:+ "        The summary should capture the core meaning while being much shorter than the original." +:+ Flow.nl
  +:+ "        " +:+ Flow.nl
  +:+ "        Text to summarize:" +:+ Flow.nl
  +:+ "        " +:+ String.string_of_list_ascii (slice t 0 6000)
  +:+ "  # Limit to prevent token overflow" +:+ Flow.nl
  +:+ "        ".

(** [summarize_text(text, client=None, min_length=500)] *)
Definition summarize_text (api_key : string) (remote : Client) (t : text)
    (client : option Client) (min_length : Z) : option string * list event :=
  if bool_decide (t = [] ∨ len t < min_length) then (None, [])
  else
    let '(client, log) := Flow.resolve_client api_key remote client in
    match client with
    | None => (None, log)
    | Some c =>
        let prompt := summary_prompt t in
        match c prompt with
        | Content summary =>
            (Some summary,
             log ++ [ChatComplete prompt; LogInfo "Successfully summarized text"])
        | Failure why =>
            (None,
             log ++ [ChatComplete prompt;
                     LogError ("Error summarizing text: " +:+ why)])
        end
    end.

Definition keyword_prompt (t : text) : string :=
  Flow.nl
  +:+ "        Extract 5-10 important keywords or key phrases from the following text." +:+ Flow.nl
  +:+ "        Focus on subject-specific terminology, important concepts, and significant entities." +:+ Flow.nl
  +:+ "        Return ONLY the keywords, separated by commas, with no additional text or explanation." +:+ Flow.nl
  +:+ "        " +:+ Flow.nl
  +:+ "        Text for keyword extraction:" +:+ Flow.nl
  +:+ "        " +:+ String.string_of_list_ascii (slice t 0 4000)
  +:+ "  # Limit to prevent token overflow" +:+ Flow.nl
  +:+ "        ".

(** The reply of the service turned into keywords: the lines 94-99 of
    [extract_keywords]. *)
Definition parse_keywords (keyword_text : string) : list string :=
  let keyword_text := strip keyword_text in
  let keyword_text :=
    if startswith keyword_text "Keywords:"
    then strip (str_drop (String.length "Keywords:") keyword_text)
    else keyword_text in
  omap (λ k, if truthy (strip k) then Some (strip k) else None)
       (split "," keyword_text).

(** [extract_keywords(text, client=None, min_length=200)] *)
Definition extract_keywords (api_key : string) (remote : Client) (t : text)
    (client : option Client) (min_length : Z) : list string * list event :=
  if bool_decide (t = [] ∨ len t < min_length) then ([], [])
  else
    let '(client, log) := Flow.resolve_client api_key remote client in
    match client with
    | None => ([], log)
    | Some c =>
        let prompt := keyword_prompt t in
        match c prompt with
        | Content keyword_text =>
            (parse_keywords keyword_text,
             log ++ [ChatComplete prompt; LogInfo "Extracted keywords"])
        | Failure why =>
            ([], log ++ [ChatComplete prompt;
                         LogError ("Error extracting keywords: " +:+ why)])
        end
    end.

End DocumentProcessor.

(* ===================================================================== *)
(** * Properties *)
(* ===================================================================== *)

Import Py World.

(** ** Ranges and slices *)

Lemma multiples_below (n step : nat) :
  (0 < step)%nat →
  Chunker.window_offsets n step
  = map (λ k, k * step)%nat (seq 0 ((n + step - 1) / step)).
Proof.
  intros Hstep. unfold Chunker.window_offsets.
  induction n as [|n IH].
  - rewrite Nat.div_small by lia. done.
  - rewrite seq_S, filter_app, IH. rewrite (Nat.add_0_l n).
    pose proof (Nat.div_mod_eq n step) as Hn.
    pose proof (Nat.mod_upper_bound n step ltac:(lia)) as Hlt.
    destruct (decide (n mod step = 0)%nat) as [Hz|Hnz].
    + rewrite filter_cons_True, filter_nil by done.
      assert ((n + step - 1) / step = n / step)%nat as ->.
      { symmetry. apply (Nat.div_unique _ _ _ (step - 1)); lia. }
      assert ((S n + step - 1) / step = S (n / step))%nat as ->.
      { symmetry. apply (Nat.div_unique _ _ _ 0); lia. }
      rewrite seq_S, map_app. simpl. f_equal. f_equal. lia.
    + rewrite filter_cons_False, filter_nil, app_nil_r by done.
      f_equal. f_equal.
      assert ((n + step - 1) / step = S (n / step))%nat as ->.
      { symmetry. apply (Nat.div_unique _ _ _ (n mod step - 1)); lia. }
      apply (Nat.div_unique _ _ _ (n mod step)); lia.
Qed.

Lemma range_from_zero (n step : Z) :
  0 < step → 0 ≤ n →
  range 0 n step
  = Ok (map Z.of_nat (Chunker.window_offsets (Z.to_nat n) (Z.to_nat step))).
Proof.
  intros Hstep Hn. unfold range, range_len.
  rewrite (proj2 (Z.eqb_neq _ _)) by lia.
  rewrite (proj2 (Z.ltb_lt _ _)) by lia.
  rewrite multiples_below by lia. rewrite map_map. f_equal.
  assert (Z.to_nat (if 0 <? n then (n - 0 - 1) / step + 1 else 0)
          = ((Z.to_nat n + Z.to_nat step - 1) / Z.to_nat step)%nat) as ->.
  { destruct (Z.ltb_spec 0 n) as [Hpos|Hle].
    - apply Nat2Z.inj. rewrite Nat2Z.inj_div.
      rewrite Z2Nat.id by (pose proof (Z.div_pos (n - 0 - 1) step); lia).
      rewrite Nat2Z.inj_sub, Nat2Z.inj_add, !Z2Nat.id by lia.
      replace (n + step - Z.of_nat 1) with ((n - 0 - 1) + 1 * step) by lia.
      rewrite Z.div_add by lia. done.
    - replace n with 0 by lia. simpl.
      symmetry. apply Nat.div_small. lia. }
  apply map_ext. intros k. lia.
Qed.

Lemma range_negative_step (n step : Z) :
  step < 0 → 0 ≤ n → range 0 n step = Ok [].
Proof.
  intros Hstep Hn. unfold range, range_len.
  rewrite (proj2 (Z.eqb_neq _ _)) by lia.
  rewrite (proj2 (Z.ltb_ge _ _)) by lia.
  rewrite (proj2 (Z.ltb_ge _ _)) by lia. done.
Qed.

Lemma range_zero_step (start stop : Z) :
  range start stop 0 = Raise range_step_zero.
Proof. done. Qed.

Lemma to_nat_len {A} (s : list A) : Z.to_nat (len s) = length s.
Proof. unfold len. lia. Qed.

Lemma slice_window {A} (s : list A) (i : nat) (size : Z) :
  0 ≤ size →
  slice s (Z.of_nat i) (Z.of_nat i + size)
  = take (Z.to_nat size) (drop i s).
Proof.
  intros Hsize. unfold slice, adjust, len.
  rewrite !(proj2 (Z.ltb_ge _ _)) by lia.
  destruct (decide (i ≤ length s)%nat) as [Hi|Hi].
  - replace (Z.to_nat (Z.of_nat i `min` Z.of_nat (length s))) with i by lia.
    destruct (decide (Z.of_nat i + size ≤ Z.of_nat (length s))) as [Hj|Hj].
    + f_equal. lia.
    + rewrite !take_ge; [done| |]; rewrite length_drop; lia.
  - rewrite (drop_ge s i) by lia. rewrite drop_ge by lia.
    by rewrite !take_nil.
Qed.

(** ** The chunkers *)

Section ChunkerFacts.
Import Chunker.

Lemma for_each_total {A B} (body : A → result B) (g : A → B) (xs : list A) :
  (∀ x, body x = Ok (g x)) → for_each body xs = Ok (map g xs).
Proof.
  intros Hbody. induction xs as [|x xs IH]; [done|].
  simpl. by rewrite Hbody, IH.
Qed.

Lemma omap_cons_match {A B} (f : A → option B) (x : A) (l : list A) :
  omap f (x :: l)
  = match f x with Some y => y :: omap f l | None => omap f l end.
Proof. done. Qed.

Lemma threshold_nat (size : Z) :
  0 ≤ size → Z.to_nat (size / 4) = (Z.to_nat size / 4)%nat.
Proof. intros ?. by rewrite Z2Nat.inj_div by lia. Qed.

(** What the loop body keeps, against the windows of the contract. *)
Lemma kept_windows (t : text) (size thr : Z) (offs : list nat) :
  0 ≤ size → 0 ≤ thr →
  filter (λ c, ¬ len c < thr)
         (map (λ i, slice t i (i + size)) (map Z.of_nat offs))
  = (filter (λ w : nat * text, (Z.to_nat thr ≤ length w.2)%nat)
            (map (λ i, (i, window t (Z.to_nat size) i)) offs)).*2.
Proof.
  intros Hsize Hthr. induction offs as [|i offs IH]; [done|].
  cbn [map]. rewrite slice_window by done. fold (window t (Z.to_nat size) i).
  destruct (decide (Z.to_nat thr ≤ length (window t (Z.to_nat size) i))%nat)
    as [Hkeep|Hdrop].
  - rewrite !filter_cons_True; [|done|unfold len; lia].
    cbn. by rewrite IH.
  - rewrite !filter_cons_False; [done|done|unfold len; lia].
Qed.

Lemma kept_small_chunks (i : Z) (large : text) (size thr : Z) (offs : list nat) :
  0 ≤ size → 0 ≤ thr →
  omap (λ j, let small_chunk := slice large j (j + size) in
             if bool_decide (len small_chunk < thr) then None
             else Some (Chunk small_chunk 1 j (Some i)))
       (map Z.of_nat offs)
  = map (λ w : nat * text, Chunk w.2 1 (Z.of_nat w.1) (Some i))
        (filter (λ w : nat * text, (Z.to_nat thr ≤ length w.2)%nat)
                (map (λ j, (j, window large (Z.to_nat size) j)) offs)).
Proof.
  intros Hsize Hthr. cbv zeta. induction offs as [|j offs IH]; [done|].
  cbn [map]. rewrite omap_cons_match, slice_window by done.
  fold (window large (Z.to_nat size) j).
  destruct (decide (Z.to_nat thr ≤ length (window large (Z.to_nat size) j))%nat)
    as [Hkeep|Hdrop].
  - rewrite bool_decide_eq_false_2 by (unfold len; lia).
    rewrite filter_cons_True by done. cbn. by rewrite IH.
  - rewrite bool_decide_eq_true_2 by (unfold len; lia).
    rewrite filter_cons_False by done. done.
Qed.

Lemma kept_spec_chunks (t : text) (size thr : Z) (step : nat) :
  0 ≤ size → 0 ≤ thr →
  filter (λ c, ¬ len c < thr)
         (map (λ i, slice t i (i + size))
              (map Z.of_nat (window_offsets (length t) step)))
  = spec_chunks t (Z.to_nat size) step (Z.to_nat thr).
Proof. intros. by apply kept_windows. Qed.

Lemma chunk_text_windows (t : text) (chunk_size overlap : Z) :
  0 ≤ overlap < chunk_size →
  chunk_text t chunk_size overlap
  = Ok (spec_chunks t (Z.to_nat chunk_size)
          (Z.to_nat (chunk_size - overlap)) 50).
Proof.
  intros Hcfg. unfold chunk_text.
  rewrite range_from_zero by (unfold len; lia). cbn [bind].
  rewrite to_nat_len.
  by rewrite (kept_spec_chunks t chunk_size 50) by lia.
Qed.

Lemma small_chunks_windows (i : Z) (large : text) (size1 overlap1 : Z) :
  0 ≤ overlap1 < size1 →
  small_chunks i large size1 overlap1
  = Ok (map (λ w : nat * text, Chunk w.2 1 (Z.of_nat w.1) (Some i))
          (spec_windows large (Z.to_nat size1) (Z.to_nat (size1 - overlap1))
             (Z.to_nat size1 / 4))).
Proof.
  intros Hcfg. unfold small_chunks.
  rewrite range_from_zero by (unfold len; lia). cbn [bind].
  rewrite to_nat_len.
  rewrite (kept_small_chunks i large size1 (size1 / 4)); [|lia|].
  - by rewrite threshold_nat by lia.
  - apply Z.div_pos; lia.
Qed.

Lemma hierarchical_chunking_windows (t : text) (size0 overlap0 size1 overlap1 : Z) :
  0 ≤ overlap0 < size0 → 0 ≤ overlap1 < size1 →
  hierarchical_chunking t (size0, size1) (overlap0, overlap1)
  = Ok (spec_hierarchy t (Z.to_nat size0) (Z.to_nat (size0 - overlap0))
          (Z.to_nat size1) (Z.to_nat (size1 - overlap1))).
Proof.
  intros Hcfg0 Hcfg1. unfold hierarchical_chunking. cbn [fst snd].
  rewrite range_from_zero by (unfold len; lia). cbn [bind].
  rewrite to_nat_len.
  rewrite (kept_spec_chunks t size0 (size0 / 4)); [|lia|apply Z.div_pos; lia].
  rewrite threshold_nat by lia.
  destruct t as [|c t]; [done|].
  rewrite (for_each_total _
    (λ p : Z * text,
       Chunk p.2 0 p.1 None
       :: map (λ w : nat * text, Chunk w.2 1 (Z.of_nat w.1) (Some p.1))
              (spec_windows p.2 (Z.to_nat size1) (Z.to_nat (size1 - overlap1))
                 (Z.to_nat size1 / 4)))).
  - cbn [bind]. unfold spec_hierarchy, enumerate. f_equal. f_equal.
    generalize (spec_chunks (c :: t) (Z.to_nat size0)
                  (Z.to_nat (size0 - overlap0)) (Z.to_nat size0 / 4)).
    intros l. by rewrite fmap_imap.
  - intros [i large]. by rewrite small_chunks_windows by done.
Qed.

End ChunkerFacts.

(** C6, as stated, fails for [chunk_text]: with the default configuration
    (chunk size 500, overlap 100) the only window of a sixty-character text
    is kept, although it is shorter than 500/4 = 125 characters, so the
    result is not the one the stated contract describes. *)
Lemma chunk_text_keeps_window_below_quarter :
  Chunker.chunk_text Chunker.sixty_chars 500 100 = Ok [Chunker.sixty_chars]
  ∧ len Chunker.sixty_chars < 500 / 4
  ∧ Chunker.chunk_text Chunker.sixty_chars 500 100
    ≠ Ok (Chunker.spec_chunks Chunker.sixty_chars 500 400 (500 / 4)).
Proof. split_and!; [by vm_compute|by vm_compute|by vm_compute]. Qed.

(** C6 (amended): for [0 ≤ overlap < chunk_size] both chunkers emit the
    windows [text[i : i + chunk_size]] at the offsets [0, step, 2·step, …],
    [step = chunk_size − overlap]; [chunk_text] keeps a window if and only if
    it has at least 50 characters, whatever the chunk size, and
    [hierarchical_chunking] keeps a window, on either level, if and only if
    it has at least [chunk_size // 4] characters (the quotient rounded down),
    level 1 being cut from each kept level-0 window alone. *)
Theorem chunker_contract (t : Chunker.text) (size overlap size1 overlap1 : Z) :
  0 ≤ overlap < size →
  0 ≤ overlap1 < size1 →
  Chunker.chunk_text t size overlap
  = Ok (Chunker.spec_chunks t (Z.to_nat size) (Z.to_nat (size - overlap)) 50)
  ∧ Chunker.hierarchical_chunking t (size, size1) (overlap, overlap1)
    = Ok (Chunker.spec_hierarchy t
            (Z.to_nat size) (Z.to_nat (size - overlap))
            (Z.to_nat size1) (Z.to_nat (size1 - overlap1))).
Proof.
  intros Hcfg Hcfg1. split.
  - by apply chunk_text_windows.
  - by apply hierarchical_chunking_windows.
Qed.

Lemma chunker_contract_witness :
  Chunker.chunk_text Chunker.sixty_chars 500 100
  = Ok (Chunker.spec_chunks Chunker.sixty_chars (Z.to_nat 500) (Z.to_nat (500 - 100)) 50)
  ∧ Chunker.hierarchical_chunking Chunker.sixty_chars (1000, 500) (100, 50)
    = Ok (Chunker.spec_hierarchy Chunker.sixty_chars
            (Z.to_nat 1000) (Z.to_nat (1000 - 100))
            (Z.to_nat 500) (Z.to_nat (500 - 50))).
Proof. apply (chunker_contract Chunker.sixty_chars 500 100 500 50); lia. Defined.

(** C7, as stated, fails: with an overlap above the chunk size the call is
    not rejected; [chunk_text] returns an empty list and raises nothing. *)
Lemma chunk_text_accepts_overlap_above_size :
  100 ≤ 200 ∧ Chunker.chunk_text Chunker.sixty_chars 100 200 = Ok [].
Proof. split; [lia|by vm_compute]. Qed.

(** C7 (amended): with [overlap ≥ chunk_size] no chunker validates its
    configuration and none loops forever.  For [overlap = chunk_size] the
    call ends with the [ValueError] the zero step gives [range()]; for
    [overlap > chunk_size] it returns an empty list and raises nothing.
    [hierarchical_chunking] returns the empty list for an empty text before
    it looks at its configuration. *)
Theorem chunker_step_not_positive (t : Chunker.text) (size overlap size1 overlap1 : Z) :
  size ≤ overlap →
  Chunker.chunk_text t size overlap
  = (if overlap =? size then Raise range_step_zero else Ok [])
  ∧ Chunker.hierarchical_chunking t (size, size1) (overlap, overlap1)
    = match t with
      | [] => Ok []
      | _ => if overlap =? size then Raise range_step_zero else Ok []
      end.
Proof.
  intros Hcfg. unfold Chunker.chunk_text, Chunker.hierarchical_chunking.
  cbn [fst snd].
  destruct (Z.eqb_spec overlap size) as [->|Hne].
  - rewrite Z.sub_diag, range_zero_step. by destruct t.
  - rewrite range_negative_step by (unfold len; lia). by destruct t.
Qed.

Lemma chunker_step_not_positive_witness :
  Chunker.chunk_text Chunker.sixty_chars 100 200
  = (if 200 =? 100 then Raise range_step_zero else Ok [])
  ∧ Chunker.hierarchical_chunking Chunker.sixty_chars (100, 500) (200, 50)
    = match Chunker.sixty_chars with
      | [] => Ok []
      | _ => if 200 =? 100 then Raise range_step_zero else Ok []
      end.
Proof. apply (chunker_step_not_positive Chunker.sixty_chars 100 200 500 50); lia. Defined.

(** ** The stage machine *)

Section FlowFacts.
Import Flow.
Context (api_key : string) (remote : Client).

#[local] Abbreviation check := (check_stage_completion api_key remote).
#[local] Abbreviation turn := (process_conversation_turn api_key remote).

Lemma resolve_client_silent (client : option Client) :
  silent (resolve_client api_key remote client).2.
Proof.
  destruct client as [c|]; cbn; [by constructor|].
  unfold get_mistral_client. destruct (truthy api_key); cbn.
  - constructor.
  - by repeat constructor.
Qed.

Lemma resolve_client_given (c : Client) :
  resolve_client api_key remote (Some c) = (Some c, []).
Proof. done. Qed.

(** Rule 1: the turn budget is used up and there is one next stage. *)
Lemma check_forced (stage : ConversationStage) (msg : string)
    (st : ConversationState) (client : option Client) (next : string) :
  next_stages stage = [next] →
  max_turns stage ≤ turns_in stage st →
  check stage msg st client = ((true, Some next), []).
Proof.
  intros Hnext Hmax. unfold check_stage_completion.
  rewrite bool_decide_eq_true_2 by done. by rewrite Hnext.
Qed.

(** Rule 2: whenever rule 1 does not apply, a stage without criteria is
    incomplete. *)
Lemma check_no_criteria (stage : ConversationStage) (msg : string)
    (st : ConversationState) (client : option Client) :
  completion_criteria stage = [] →
  length (next_stages stage) ≠ 1%nat →
  check stage msg st client = ((false, None), []).
Proof.
  intros Hcrit Hlen. unfold check_stage_completion. rewrite Hcrit.
  case_bool_decide; [|done].
  by destruct (next_stages stage) as [|? [|? ?]].
Qed.

(** The three ways a processed turn ends, by the verdict of the check. *)
Lemma turn_advances (msg : string) (st : ConversationState)
    (flow : ConversationFlow) (client : option Client) (c : Client)
    (stage : ConversationStage) (next : string) (log0 log : list event) :
  resolve_client api_key remote client = (Some c, log0) →
  get_stage flow (current_stage_id st) = Some stage →
  check stage msg (increment_turns st) (Some c) = ((true, Some next), log) →
  truthy next = true →
  turn msg st flow client
  = (match get_stage flow (Some next) with
     | Some entered => Returned (Some (system_prompt entered))
     | None => Raised none_has_no_system_prompt
     end,
     advance_stage (increment_turns st) next, log0 ++ log).
Proof.
  intros Hclient Hstage Hcheck Hnext. unfold process_conversation_turn.
  rewrite Hclient, Hstage, Hcheck, Hnext.
  by destruct (get_stage flow (Some next)).
Qed.

Lemma turn_stays (msg : string) (st : ConversationState)
    (flow : ConversationFlow) (client : option Client) (c : Client)
    (stage : ConversationStage) (verdict : bool * option string)
    (log0 log : list event) :
  resolve_client api_key remote client = (Some c, log0) →
  get_stage flow (current_stage_id st) = Some stage →
  check stage msg (increment_turns st) (Some c) = (verdict, log) →
  verdict.1 && truthy_opt verdict.2 = false →
  turn msg st flow client
  = (Returned (Some (system_prompt stage)), increment_turns st, log0 ++ log).
Proof.
  intros Hclient Hstage Hcheck Hstay. unfold process_conversation_turn.
  rewrite Hclient, Hstage, Hcheck.
  destruct verdict as [[] [next|]]; cbn in Hstay; try done.
  by rewrite Hstay.
Qed.

Lemma turn_keeps_stage_unless_advanced (msg : string) (st : ConversationState)
    (flow : ConversationFlow) (client : option Client) :
  (∀ stage c, get_stage flow (current_stage_id st) = Some stage →
     (check stage msg (increment_turns st) (Some c)).1.1 = false) →
  current_stage_id (turn msg st flow client).1.2 = current_stage_id st.
Proof.
  intros Hcheck. unfold process_conversation_turn.
  destruct (resolve_client api_key remote client) as [[c|] log0]; [|done].
  destruct (get_stage flow (current_stage_id st)) as [stage|] eqn:Hstage; [|done].
  specialize (Hcheck stage c eq_refl).
  destruct (check stage msg (increment_turns st) (Some c))
    as [[is_complete next] log].
  cbn in Hcheck. by subst is_complete.
Qed.

Lemma increment_turns_counter (st : ConversationState) (stage : ConversationStage) :
  current_stage_id st = Some (stage_id stage) →
  turns_in stage (increment_turns st) = turns_in stage st + 1.
Proof.
  intros Hcur. unfold turns_in, increment_turns. cbn. rewrite Hcur.
  destruct (stage_turns st !! Some (stage_id stage)) as [n|] eqn:Hn.
  - by rewrite lookup_insert_eq.
  - by rewrite lookup_insert_eq.
Qed.

Lemma split_once_absent (sep : ascii) (s : string) :
  sep ∉ String.list_ascii_of_string s → split_once sep s = [s].
Proof.
  induction s as [|c s IH]; [done|]. cbn. intros Hsep.
  destruct (ascii_dec c sep) as [->|Hne]; [set_solver|].
  rewrite IH by set_solver. done.
Qed.

Lemma split_once_first (sep : ascii) (before after : string) :
  sep ∉ String.list_ascii_of_string before →
  split_once sep (before +:+ String sep after) = [before; after].
Proof.
  induction before as [|c before IH]; simpl; intros Hsep.
  - by destruct (ascii_dec sep sep).
  - destruct (ascii_dec c sep) as [->|Hne]; [set_solver|].
    rewrite IH by set_solver. done.
Qed.

Lemma parse_complete_colon (stage : ConversationStage) (before after : string) :
  ":"%char ∉ String.list_ascii_of_string before →
  parse_complete stage (before +:+ String ":" after)
  = if truthy (strip after) && contains (next_stages stage) (strip after)
    then (true, Some (strip after))
    else (true, head (next_stages stage)).
Proof.
  intros Hbefore. unfold parse_complete.
  rewrite split_once_first by done. cbn.
  rewrite bool_decide_eq_true_2 by lia.
  by destruct (truthy _ && _), (next_stages stage).
Qed.

Lemma parse_complete_no_colon (stage : ConversationStage) (result : string) :
  ":"%char ∉ String.list_ascii_of_string result →
  parse_complete stage result = (true, head (next_stages stage)).
Proof.
  intros Hcolon. unfold parse_complete.
  rewrite split_once_absent by done. cbn.
  rewrite bool_decide_eq_false_2 by lia.
  by destruct (next_stages stage).
Qed.

(** Rule 3, once the service has answered. *)
Lemma check_judged (stage : ConversationStage) (msg : string)
    (st : ConversationState) (client : option Client) (c : Client)
    (log0 : list event) :
  completion_criteria stage ≠ [] →
  ¬ (max_turns stage ≤ turns_in stage st ∧ length (next_stages stage) = 1%nat) →
  resolve_client api_key remote client = (Some c, log0) →
  (check stage msg st client).1
  = match c (completion_prompt stage msg) with
    | Content content =>
        if startswith (strip content) "COMPLETE"
        then parse_complete stage (strip content)
        else (false, None)
    | Failure _ => (false, None)
    end.
Proof.
  intros Hcrit Hfree Hclient. unfold check_stage_completion.
  assert ((if bool_decide (max_turns stage ≤ turns_in stage st)
           then match next_stages stage with [only] => Some only | _ => None end
           else None) = None) as ->.
  { case_bool_decide; [|done].
    destruct (next_stages stage) as [|? [|? ?]]; try done.
    destruct Hfree. done. }
  destruct (completion_criteria stage); [done|].
  rewrite Hclient.
  destruct (c (completion_prompt stage msg)); [|done].
  by destruct (startswith _ _).
Qed.

(** C3: for a stage with exactly one next stage, once the stage's turn
    counter has reached [max_turns] the check answers (True, that stage)
    and the completion service is not consulted, whatever the state, the
    message and the criteria.  A processed turn counts itself before it
    checks, so the turn that brings the counter to [max_turns] (the second
    processed turn of a visit when [max_turns = 2]) moves the conversation
    to that stage, again without the service. *)
Theorem turn_limit_forces_single_next (stage : ConversationStage) (next : string) :
  next_stages stage = [next] →
  (∀ msg st client,
     max_turns stage ≤ turns_in stage st →
     check stage msg st client = ((true, Some next), []))
  ∧ (∀ flow msg st client c log0,
       resolve_client api_key remote client = (Some c, log0) →
       get_stage flow (current_stage_id st) = Some stage →
       current_stage_id st = Some (stage_id stage) →
       max_turns stage ≤ turns_in stage st + 1 →
       truthy next = true →
       current_stage_id (turn msg st flow client).1.2 = Some next
       ∧ stage_turns (turn msg st flow client).1.2 !! Some next = Some 0
       ∧ silent (turn msg st flow client).2).
Proof.
  intros Hnext. split.
  - intros msg st client Hmax. by apply check_forced.
  - intros flow msg st client c log0 Hclient Hstage Hcur Hmax Htruthy.
    rewrite (turn_advances msg st flow client c stage next log0 [])
      by (try apply check_forced; try rewrite increment_turns_counter; done).
    cbn. split_and!; [done|by rewrite lookup_insert_eq|].
    rewrite app_nil_r.
    pose proof (resolve_client_silent client) as Hsilent.
    by rewrite Hclient in Hsilent.
Qed.

(** C10: a stage without completion criteria whose next stages are none or
    several is never found complete, the service not being consulted,
    whatever its turn counter; no sequence of turns moves the conversation
    out of it. *)
Theorem stage_without_criteria_has_no_exit (stage : ConversationStage) :
  completion_criteria stage = [] →
  length (next_stages stage) ≠ 1%nat →
  (∀ msg st client, check stage msg st client = ((false, None), []))
  ∧ (∀ flow msg st client,
       get_stage flow (current_stage_id st) = Some stage →
       current_stage_id (turn msg st flow client).1.2 = current_stage_id st)
  ∧ (∀ flow inputs st,
       get_stage flow (current_stage_id st) = Some stage →
       current_stage_id (run_turns api_key remote flow inputs st)
       = current_stage_id st).
Proof.
  intros Hcrit Hlen.
  assert (∀ flow msg st client,
            get_stage flow (current_stage_id st) = Some stage →
            current_stage_id (turn msg st flow client).1.2 = current_stage_id st)
    as Hturn.
  { intros flow msg st client Hstage.
    apply turn_keeps_stage_unless_advanced.
    intros stage' c Hstage'. rewrite Hstage in Hstage'.
    injection Hstage' as <-. by rewrite check_no_criteria. }
  split_and!; [intros; by apply check_no_criteria|done|].
  intros flow inputs. induction inputs as [|[msg client] inputs IH]; [done|].
  intros st Hstage. cbn [run_turns].
  rewrite IH; rewrite Hturn; done.
Qed.

(** C5: in a turn whose completion check answers complete with a next
    stage id, the current stage id is appended to [completed_stages], the
    next id becomes [current_stage_id] and its counter in [stage_turns] is
    set to 0.  Nothing is asked of the stage entered: it may have been
    visited before, whatever its counter was it is 0 again, and every
    earlier entry of [completed_stages] is still there. *)
Theorem completed_turn_enters_next_stage (flow : ConversationFlow) (msg : string)
    (st : ConversationState) (client : option Client) (c : Client)
    (stage : ConversationStage) (cur next : string) (log0 log : list event) :
  resolve_client api_key remote client = (Some c, log0) →
  current_stage_id st = Some cur →
  truthy cur = true →
  get_stage flow (Some cur) = Some stage →
  check stage msg (increment_turns st) (Some c) = ((true, Some next), log) →
  truthy next = true →
  completed_stages (turn msg st flow client).1.2 = completed_stages st ++ [cur]
  ∧ current_stage_id (turn msg st flow client).1.2 = Some next
  ∧ stage_turns (turn msg st flow client).1.2 !! Some next = Some 0
  ∧ (∀ visited, visited ∈ completed_stages st →
       visited ∈ completed_stages (turn msg st flow client).1.2).
Proof.
  intros Hclient Hcur Htruthy Hstage Hcheck Hnext.
  rewrite <- Hcur in Hstage.
  rewrite (turn_advances msg st flow client c stage next log0 log) by done.
  cbn. rewrite Hcur, Htruthy.
  split_and!; [done|done|by rewrite lookup_insert_eq|set_solver].
Qed.

(** What a turn does when the stage it completes into is not in the flow. *)
Lemma turn_into_missing_stage (flow : ConversationFlow) (msg : string)
    (st : ConversationState) (client : option Client) (c : Client)
    (stage : ConversationStage) (next : string) (log0 log : list event) :
  resolve_client api_key remote client = (Some c, log0) →
  get_stage flow (current_stage_id st) = Some stage →
  check stage msg (increment_turns st) (Some c) = ((true, Some next), log) →
  truthy next = true →
  stages flow !! next = None →
  turn msg st flow client
  = (Raised none_has_no_system_prompt,
     advance_stage (increment_turns st) next, log0 ++ log).
Proof.
  intros Hclient Hstage Hcheck Hnext Hmissing.
  rewrite (turn_advances msg st flow client c stage next log0 log) by done.
  cbn. by rewrite Hmissing.
Qed.

(** C4: for a stage with completion criteria that rule 1 does not decide,
    the verdict follows the reply of the service.  A reply that, trimmed,
    starts with COMPLETE and carries after its first colon the (trimmed,
    non-empty) id of a declared next stage gives (True, that id); a reply
    that starts with COMPLETE with no colon, or with an id that is empty or
    not declared, gives (True, first declared next stage), which is
    (True, None) when none is declared; every other reply, a failed call and
    a client that cannot be had give (False, None). *)
Theorem verdict_follows_reply (stage : ConversationStage) (msg : string)
    (st : ConversationState) (client : option Client) :
  completion_criteria stage ≠ [] →
  ¬ (max_turns stage ≤ turns_in stage st ∧ length (next_stages stage) = 1%nat) →
  ((resolve_client api_key remote client).1 = None →
     (check stage msg st client).1 = (false, None))
  ∧ (∀ c, (resolve_client api_key remote client).1 = Some c →
       (∀ content before after,
          c (completion_prompt stage msg) = Content content →
          startswith (strip content) "COMPLETE" = true →
          strip content = before +:+ String ":" after →
          ":"%char ∉ String.list_ascii_of_string before →
          (strip after ≠ "" → strip after ∈ next_stages stage →
             (check stage msg st client).1 = (true, Some (strip after)))
          ∧ (strip after = "" ∨ strip after ∉ next_stages stage →
             (check stage msg st client).1 = (true, head (next_stages stage))))
       ∧ (∀ content,
            c (completion_prompt stage msg) = Content content →
            startswith (strip content) "COMPLETE" = true →
            ":"%char ∉ String.list_ascii_of_string (strip content) →
            (check stage msg st client).1 = (true, head (next_stages stage)))
       ∧ (∀ content,
            c (completion_prompt stage msg) = Content content →
            startswith (strip content) "COMPLETE" = false →
            (check stage msg st client).1 = (false, None))
       ∧ (∀ why,
            c (completion_prompt stage msg) = Failure why →
            (check stage msg st client).1 = (false, None))).
Proof.
  intros Hcrit Hfree. split.
  - intros Hnone. unfold check_stage_completion.
    destruct (resolve_client api_key remote client) as [[c|] log0] eqn:Hclient;
      [done|].
    case_bool_decide.
    + destruct (next_stages stage) as [|? [|? ?]] eqn:Hnext; cbn.
      * by destruct (completion_criteria stage).
      * destruct Hfree. done.
      * by destruct (completion_criteria stage).
    + by destruct (completion_criteria stage).
  - intros c Hclient.
    destruct (resolve_client api_key remote client) as [c' log0] eqn:Hresolve.
    cbn in Hclient. subst c'.
    pose proof (check_judged stage msg st client c log0 Hcrit Hfree Hresolve)
      as Hverdict.
    split_and!.
    + intros content before after Hreply Hstarts Hsplit Hbefore.
      rewrite Hverdict, Hreply, Hstarts, Hsplit, parse_complete_colon by done.
      split.
      * intros Hid Hin. unfold contains.
        rewrite bool_decide_eq_true_2 by done.
        by destruct (strip after).
      * intros [Hid|Hout].
        -- by rewrite Hid.
        -- unfold contains. rewrite bool_decide_eq_false_2 by done.
           by rewrite andb_false_r.
    + intros content Hreply Hstarts Hcolon.
      by rewrite Hverdict, Hreply, Hstarts, parse_complete_no_colon.
    + intros content Hreply Hstarts. by rewrite Hverdict, Hreply, Hstarts.
    + intros why Hreply. by rewrite Hverdict, Hreply.
Qed.

End FlowFacts.

(** The greeting stage of the customer-support flow has [max_turns = 2] and
    one next stage: the second message moves the conversation on. *)
Lemma turn_limit_forces_single_next_witness :
  let second :=
    Flow.process_conversation_turn "key" Flow.always_incomplete
      "It does not start" Flow.after_first_turn Flow.customer_flow None in
  Flow.current_stage_id second.1.2 = Some "problem_identification"
  ∧ Flow.stage_turns second.1.2 !! Some "problem_identification" = Some 0
  ∧ silent second.2.
Proof.
  apply (proj2 (turn_limit_forces_single_next "key" Flow.always_incomplete
                  Flow.greeting_stage "problem_identification" eq_refl)
           Flow.customer_flow "It does not start" Flow.after_first_turn
           None Flow.always_incomplete []);
    by vm_compute.
Defined.

(** The closing stage has neither criteria nor next stages: the
    conversation stays in it. *)
Lemma stage_without_criteria_has_no_exit_witness :
  Flow.current_stage_id
    (Flow.run_turns "key" (Flow.complete_into "greeting") Flow.customer_flow
       [("Thanks", None); ("One more thing", None); ("Hello?", None)]
       Flow.in_closing)
  = Flow.current_stage_id Flow.in_closing.
Proof.
  apply (proj2 (proj2 (stage_without_criteria_has_no_exit "key"
                         (Flow.complete_into "greeting") Flow.closing_stage
                         eq_refl ltac:(discriminate)))).
  by vm_compute.
Defined.

(** The retry loop of the customer-support flow: from the resolution stage
    back into problem identification, which was visited before. *)
Lemma completed_turn_enters_next_stage_witness :
  let back :=
    Flow.process_conversation_turn "key" Flow.always_incomplete
      "It is still broken" Flow.in_resolution Flow.customer_flow
      (Some (Flow.complete_into "problem_identification")) in
  "problem_identification" ∈ Flow.completed_stages Flow.in_resolution
  ∧ Flow.stage_turns Flow.in_resolution !! Some "problem_identification" = Some 1
  ∧ Flow.completed_stages back.1.2
    = Flow.completed_stages Flow.in_resolution ++ ["resolution_confirmation"]
  ∧ Flow.current_stage_id back.1.2 = Some "problem_identification"
  ∧ Flow.stage_turns back.1.2 !! Some "problem_identification" = Some 0
  ∧ (∀ visited, visited ∈ Flow.completed_stages Flow.in_resolution →
       visited ∈ Flow.completed_stages back.1.2).
Proof.
  split; [apply (bool_decide_unpack _); vm_compute; exact I|].
  split; [by vm_compute|].
  apply (completed_turn_enters_next_stage "key" Flow.always_incomplete
           Flow.customer_flow "It is still broken" Flow.in_resolution
           (Some (Flow.complete_into "problem_identification"))
           (Flow.complete_into "problem_identification")
           Flow.resolution_stage "resolution_confirmation"
           "problem_identification" []
           [ChatComplete (Flow.completion_prompt Flow.resolution_stage
                            "It is still broken")]);
    by vm_compute.
Defined.

(** The problem stage has criteria and two next stages; a reply naming the
    second is followed. *)
Lemma verdict_follows_reply_witness :
  (Flow.check_stage_completion "key" Flow.always_incomplete Flow.problem_stage
     "It does not start" Flow.after_first_turn
     (Some (Flow.complete_into "escalation"))).1
  = (true, Some (strip " escalation")).
Proof.
  pose proof (verdict_follows_reply "key" Flow.always_incomplete
                Flow.problem_stage "It does not start" Flow.after_first_turn
                (Some (Flow.complete_into "escalation"))
                ltac:(discriminate) ltac:(vm_compute; intros [? _]; done))
    as [_ Hjudged].
  destruct (Hjudged (Flow.complete_into "escalation") eq_refl) as [Hid _].
  apply (Hid " COMPLETE: escalation " "COMPLETE" " escalation");
    [done|done|done|apply (bool_decide_unpack _); vm_compute; exact I
    |by vm_compute|apply (bool_decide_unpack _); vm_compute; exact I].
Defined.

(** C8: a flow file whose only stage names a next stage that is not in the
    file is loaded as it is.  The turn that completes the stage into the
    missing id does not end in a signalled failure: the state has already
    been advanced to the missing id when reading [system_prompt] of the
    stage that was not found raises [AttributeError].  The logged
    'invalid stage' result only comes with the turn after. *)
Theorem dangling_next_stage_raises :
  let flow := Flow.flow_from_dict Flow.dangling_data in
  let first :=
    Flow.process_conversation_turn "key" Flow.always_incomplete "Hello"
      (Flow.start_state flow) flow None in
  let second :=
    Flow.process_conversation_turn "key" Flow.always_incomplete "Hello again"
      first.1.2 flow None in
  (Flow.next_stages <$> Flow.get_stage flow (Some "intro") = Some ["ghost"]
   ∧ Flow.get_stage flow (Some "ghost") = None)
  ∧ first.1.1 = Flow.Raised Flow.none_has_no_system_prompt
  ∧ Flow.current_stage_id first.1.2 = Some "ghost"
  ∧ Flow.completed_stages first.1.2 = ["intro"]
  ∧ second = (Flow.Returned None, first.1.2, [LogError "Invalid stage ID"]).
Proof. by vm_compute. Qed.

(** ** Building the index *)

Section IndexFacts.
Import Index.

Lemma process_document_no_text (env : Env) (file_path : string) :
  no_text env file_path → doc_processed (process_document env file_path) = false.
Proof. unfold process_document. by intros [-> | ->]. Qed.

Lemma file_rows_no_text (env : Env) (file_path : string) :
  no_text env file_path → file_rows env file_path = [].
Proof. unfold file_rows. by intros [-> | ->]. Qed.

(** Files that give no text give no document, with either way of
    processing. *)
Lemma documents_found_no_text (env : Env) (use_advanced_processing : bool)
    (files : list string) :
  Forall (no_text env) files →
  documents_found env use_advanced_processing files = [].
Proof.
  intros Hfiles. unfold documents_found, collect_rows.
  destruct use_advanced_processing.
  - unfold process_documents_batch.
    destruct files as [|f files]; [done|].
    destruct (truthy (api_key env)); [|done]. cbn [fst snd].
    replace (filter _ _) with (@nil Doc); [done|].
    symmetry. induction Hfiles as [|g rest Hg _ IH]; [done|].
    cbn [map]. rewrite filter_cons_False; [done|].
    by rewrite process_document_no_text.
  - cbn [fst snd].
    induction Hfiles as [|g rest Hg _ IH]; [done|].
    cbn [flat_map]. by rewrite file_rows_no_text.
Qed.

(** The two early exits of [create_index]. *)
Lemma create_index_no_files (env : Env) (directory_path : string)
    (use_advanced_processing : bool) (idx : index) (disk : option index) :
  is_dir env directory_path = true →
  files_under env directory_path = [] →
  create_index env directory_path use_advanced_processing idx disk
  = (idx, disk,
     [LogInfo "Creating index for directory";
      LogWarning "No files found in directory";
      UiWarning "No files found in the specified directory."]).
Proof. intros Hdir Hfiles. unfold create_index. by rewrite Hdir, Hfiles. Qed.

Lemma create_index_no_documents (env : Env) (directory_path : string)
    (use_advanced_processing : bool) (idx : index) (disk : option index) :
  is_dir env directory_path = true →
  files_under env directory_path ≠ [] →
  documents_found env use_advanced_processing (files_under env directory_path)
  = [] →
  create_index env directory_path use_advanced_processing idx disk
  = (idx, disk,
     [LogInfo "Creating index for directory"]
     ++ (collect_rows env use_advanced_processing
           (files_under env directory_path)).2
     ++ [LogWarning "No content extracted from files.";
         UiWarning "No content could be extracted from the files."]).
Proof.
  intros Hdir Hfiles Hnone. unfold create_index, documents_found in *.
  rewrite Hdir. cbn [negb].
  destruct (files_under env directory_path) as [|f files]; [done|].
  destruct (collect_rows env use_advanced_processing (f :: files))
    as [[[rows new_summaries] new_keywords] log].
  cbn [fst snd] in *. by rewrite Hnone.
Qed.

(** Membership in a log written out event by event. *)
Ltac log_membership :=
  rewrite ?not_elem_of_app, ?elem_of_app, ?not_elem_of_cons, ?elem_of_cons,
    ?elem_of_nil;
  first [ by intuition | by eauto 10 ].

Lemma collect_rows_no_write (env : Env) (use_advanced_processing : bool)
    (files : list string) (path : string) :
  WriteFile path ∉ (collect_rows env use_advanced_processing files).2.
Proof.
  unfold collect_rows, process_documents_batch.
  destruct use_advanced_processing; [|cbn; log_membership].
  destruct files; [cbn; log_membership|].
  destruct (truthy (api_key env)); cbn; log_membership.
Qed.

(** C9: when the directory holds no file, and when its files give no
    document (in particular when no text comes out of any of them),
    [create_index] returns after a warning; the resident index is the one
    it was, in every field, and the persisted index is not written. *)
Theorem create_index_without_documents (env : Env) (directory_path : string)
    (use_advanced_processing : bool) (idx : index) (disk : option index) :
  is_dir env directory_path = true →
  files_under env directory_path = []
  ∨ Forall (no_text env) (files_under env directory_path)
  ∨ documents_found env use_advanced_processing (files_under env directory_path)
    = [] →
  (create_index env directory_path use_advanced_processing idx disk).1
  = (idx, disk)
  ∧ (∃ msg, LogWarning msg
            ∈ (create_index env directory_path use_advanced_processing idx disk).2)
  ∧ (∀ path, WriteFile path
             ∉ (create_index env directory_path use_advanced_processing idx disk).2).
Proof.
  intros Hdir Hnone.
  destruct (decide (files_under env directory_path = [])) as [Hfiles|Hfiles].
  - rewrite create_index_no_files by done. cbn.
    split_and!; [done|eexists; log_membership|intros path; log_membership].
  - assert (documents_found env use_advanced_processing
              (files_under env directory_path) = []) as Hdocs.
    { destruct Hnone as [?|[?|?]]; [done|by apply documents_found_no_text|done]. }
    rewrite create_index_no_documents by done. cbn [fst snd].
    split_and!; [done|eexists; log_membership|].
    intros path.
    pose proof (collect_rows_no_write env use_advanced_processing
                  (files_under env directory_path) path).
    log_membership.
Qed.

End IndexFacts.

Lemma create_index_without_documents_witness :
  ((Index.create_index Index.deserted "inbox" true Index.resident None).1
   = (Index.resident, None)
   ∧ (Index.create_index Index.unreadable "scans" true Index.resident
        (Some Index.resident)).1
     = (Index.resident, Some Index.resident)
   ∧ (Index.create_index Index.unreadable "scans" false Index.resident
        (Some Index.resident)).1
     = (Index.resident, Some Index.resident)).
Proof.
  split_and!.
  - apply (create_index_without_documents Index.deserted "inbox" true);
      [done|by left].
  - apply (create_index_without_documents Index.unreadable "scans" true);
      [done|right; left; repeat constructor].
  - apply (create_index_without_documents Index.unreadable "scans" false);
      [done|right; right; done].
Defined.

(** ** Cosine similarity on [float64] *)

Section FloatFacts.
Import Numpy.
Open Scope float_scope.

Lemma is_zero_class_of (x : float) :
  PrimFloat.is_zero x = true → is_zero_class (Prim2SF x).
Proof.
  unfold PrimFloat.is_zero. rewrite FloatAxioms.eqb_spec.
  change (Prim2SF PrimFloat.zero) with (S754_zero false).
  by destruct (Prim2SF x) as [?|[]| |[]].
Qed.

Lemma is_nan_of (x : float) :
  Prim2SF x = S754_nan → PrimFloat.is_nan x = true.
Proof. unfold PrimFloat.is_nan. rewrite FloatAxioms.eqb_spec. by intros ->. Qed.

Lemma nan_is_not_zero (x : float) :
  Prim2SF x = S754_nan → PrimFloat.is_zero x = false.
Proof. unfold PrimFloat.is_zero. rewrite FloatAxioms.eqb_spec. by intros ->. Qed.

Lemma mul_zero_l (x y : float) :
  is_zero_class (Prim2SF x) → zero_or_nan (Prim2SF (x * y)).
Proof.
  rewrite FloatAxioms.mul_spec. unfold SF64mul, SFmul.
  by destruct (Prim2SF x), (Prim2SF y).
Qed.

Lemma mul_zero_zero (x y : float) :
  is_zero_class (Prim2SF x) → is_zero_class (Prim2SF y) →
  is_zero_class (Prim2SF (x * y)).
Proof.
  rewrite FloatAxioms.mul_spec. unfold SF64mul, SFmul.
  by destruct (Prim2SF x), (Prim2SF y).
Qed.

Lemma add_zero_or_nan (x y : float) :
  zero_or_nan (Prim2SF x) → zero_or_nan (Prim2SF y) →
  zero_or_nan (Prim2SF (x + y)).
Proof.
  rewrite FloatAxioms.add_spec. unfold SF64add, SFadd.
  by destruct (Prim2SF x) as [[]| | |], (Prim2SF y) as [[]| | |].
Qed.

Lemma add_zero_zero (x y : float) :
  is_zero_class (Prim2SF x) → is_zero_class (Prim2SF y) →
  is_zero_class (Prim2SF (x + y)).
Proof.
  rewrite FloatAxioms.add_spec. unfold SF64add, SFadd.
  by destruct (Prim2SF x) as [[]| | |], (Prim2SF y) as [[]| | |].
Qed.

Lemma sqrt_zero (x : float) :
  is_zero_class (Prim2SF x) → is_zero_class (Prim2SF (PrimFloat.sqrt x)).
Proof.
  rewrite FloatAxioms.sqrt_spec. unfold SF64sqrt, SFsqrt. by destruct (Prim2SF x).
Qed.

Lemma div_by_zero_nan (x y : float) :
  zero_or_nan (Prim2SF x) → is_zero_class (Prim2SF y) →
  Prim2SF (x / y) = S754_nan.
Proof.
  rewrite FloatAxioms.div_spec. unfold SF64div, SFdiv.
  by destruct (Prim2SF x), (Prim2SF y).
Qed.

(** The dot product of a zero row with anything is a zero or NaN. *)
Lemma dot_zero_row_from (row other : list float) (acc : float) :
  Forall (λ x, PrimFloat.is_zero x = true) row →
  zero_or_nan (Prim2SF acc) →
  zero_or_nan
    (Prim2SF (foldl (λ acc p, add acc (mul p.1 p.2)) acc (zip row other))).
Proof.
  intros Hrow. revert other acc.
  induction Hrow as [|x row Hx _ IH]; intros [|y other] acc Hacc; try done.
  cbn [zip zip_with foldl]. apply IH.
  apply add_zero_or_nan; [done|].
  apply mul_zero_l. by apply is_zero_class_of.
Qed.

Lemma dot_zero_row (row other : list float) :
  Forall (λ x, PrimFloat.is_zero x = true) row →
  zero_or_nan (Prim2SF (dot row other)).
Proof. intros Hrow. by apply dot_zero_row_from. Qed.

Lemma norm_zero_row_from (row : list float) (acc : float) :
  Forall (λ x, PrimFloat.is_zero x = true) row →
  is_zero_class (Prim2SF acc) →
  is_zero_class
    (Prim2SF (foldl (λ acc p, add acc (mul p.1 p.2)) acc (zip row row))).
Proof.
  intros Hrow. revert acc.
  induction Hrow as [|x row Hx _ IH]; intros acc Hacc; [done|].
  cbn [zip zip_with foldl]. apply IH.
  apply add_zero_zero; [done|].
  apply mul_zero_zero; by apply is_zero_class_of.
Qed.

Lemma norm_zero_row (row : list float) :
  Forall (λ x, PrimFloat.is_zero x = true) row →
  is_zero_class (Prim2SF (norm row)).
Proof.
  intros Hrow. apply sqrt_zero. by apply norm_zero_row_from.
Qed.

(** The similarity of a stored zero vector is [0/0] or [nan/0]. *)
Lemma zero_row_similarity (row other : list float) :
  Forall (λ x, PrimFloat.is_zero x = true) row →
  Prim2SF (div (dot row other) (norm row)) = S754_nan.
Proof.
  intros Hrow. apply div_by_zero_nan.
  - by apply dot_zero_row.
  - by apply norm_zero_row.
Qed.

Lemma cosine_similarity_rows {F} `{Arith F}
    (query : list F) (table : list (list F)) :
  table ≠ [] →
  Forall (λ row, length row = length query) table →
  cosine_similarity query table
  = Ok (map (λ row, div (dot row (map (λ x, div x (norm query)) query))
                        (norm row))
            table).
Proof.
  intros Hrows Hshape. unfold cosine_similarity.
  rewrite bool_decide_eq_true_2 by done.
  destruct table as [|row table]; [done|]. f_equal.
  generalize (row :: table). intros rows.
  induction rows as [|r rows IH]; [done|].
  cbn. by rewrite <- IH.
Qed.

End FloatFacts.

(** ** Cosine similarity of basis vectors *)

Section BasisFacts.
Import Numpy.
Open Scope float_scope.

#[local] Abbreviation unit_at :=
  (λ (i j : nat), if bool_decide (j = i) then 1 else 0).

(** A product of two entries that are not both one leaves a sum of zero
    or one as it is. *)
Lemma add_product_miss (acc a b : float) :
  acc = 0 ∨ acc = 1 → a = 0 ∨ a = 1 → b = 0 ∨ b = 1 →
  ¬ (a = 1 ∧ b = 1) →
  add acc (mul a b) = acc.
Proof.
  intros [-> | ->] [-> | ->] [-> | ->] Hmiss; try done.
  all: exfalso; by apply Hmiss.
Qed.

Lemma unit_at_cases (i j : nat) : unit_at i j = 0 ∨ unit_at i j = 1.
Proof. cbn. case_bool_decide; [by right|by left]. Qed.

Lemma sum_without_hit (i j m s : nat) (acc : float) :
  acc = 0 ∨ acc = 1 →
  (∀ k, (s ≤ k < s + m)%nat → ¬ (k = i ∧ k = j)) →
  foldl (λ acc p, add acc (mul p.1 p.2)) acc
        (zip (unit_at i <$> seq s m) (unit_at j <$> seq s m))
  = acc.
Proof.
  revert s acc. induction m as [|m IH]; intros s acc Hacc Hmiss; [done|].
  cbn [seq]. rewrite !fmap_cons. cbn [zip zip_with foldl fst snd].
  rewrite add_product_miss;
    [|done|apply unit_at_cases|apply unit_at_cases|].
  - apply IH; [done|]. intros k Hk. apply Hmiss. lia.
  - cbn. intros [Hi Hj]. apply (Hmiss s); [lia|].
    by repeat case_bool_decide.
Qed.

Lemma sum_with_hit (i m s : nat) :
  (s ≤ i < s + m)%nat →
  foldl (λ acc p, add acc (mul p.1 p.2)) 0
        (zip (unit_at i <$> seq s m) (unit_at i <$> seq s m))
  = 1.
Proof.
  revert s. induction m as [|m IH]; intros s Hi; [lia|].
  cbn [seq]. rewrite !fmap_cons. cbn [zip zip_with foldl fst snd].
  destruct (decide (s = i)) as [->|Hne].
  - rewrite bool_decide_eq_true_2 by done.
    change (add 0 (mul 1 1)) with 1.
    apply sum_without_hit; [by right|]. intros k Hk. lia.
  - rewrite bool_decide_eq_false_2 by done.
    change (add 0 (mul 0 0)) with 0. apply IH. lia.
Qed.

Lemma dot_basis (n i j : nat) :
  (i < n)%nat →
  dot (basis n j) (basis n i) = unit_at i j.
Proof.
  intros Hi. unfold dot, basis. cbn [zero binary64].
  destruct (decide (j = i)) as [->|Hne].
  - rewrite bool_decide_eq_true_2 by done. apply sum_with_hit. lia.
  - rewrite bool_decide_eq_false_2 by done.
    apply sum_without_hit; [by left|]. intros k _ [-> ->]. done.
Qed.

Lemma norm_basis (n i : nat) : (i < n)%nat → norm (basis n i) = 1.
Proof.
  intros Hi. unfold norm. rewrite dot_basis by done.
  by rewrite bool_decide_eq_true_2.
Qed.

Lemma basis_length (n i : nat) : length (basis n i) = n.
Proof. unfold basis. by rewrite length_fmap, length_seq. Qed.

Lemma basis_normalized (n i : nat) :
  (i < n)%nat →
  map (λ x, div x (norm (basis n i))) (basis n i) = basis n i.
Proof.
  intros Hi. rewrite norm_basis by done. unfold basis.
  induction (seq 0 n) as [|k ks IH]; [done|].
  rewrite fmap_cons. cbn [map]. rewrite IH. f_equal.
  by case_bool_decide.
Qed.

(** The similarities of a basis vector to basis vectors, on [float64]:
    one to itself, zero to every other. *)
Lemma basis_similarities (n i : nat) (js : list nat) :
  (i < n)%nat → js ≠ [] → Forall (λ j, (j < n)%nat) js →
  cosine_similarity (basis n i) (basis n <$> js)
  = Ok (unit_at i <$> js).
Proof.
  intros Hi Hjs Hbound.
  rewrite cosine_similarity_rows.
  - f_equal. rewrite basis_normalized by done.
    change (map ?f (basis n <$> js)) with (f <$> (basis n <$> js)).
    rewrite <- list_fmap_compose. apply Forall_fmap_ext_1.
    apply (Forall_impl _ _ _ Hbound). intros j Hj. cbn [compose].
    rewrite dot_basis, norm_basis by done. by case_bool_decide.
  - by destruct js.
  - apply Forall_fmap, Forall_forall. intros j _. cbn.
    by rewrite !basis_length.
Qed.

End BasisFacts.

Section SimilarityClaims.
Import Numpy.




End SimilarityClaims.

(** ** Sorting rows by similarity *)

Section ArgsortFacts.
Import Numpy.
Context {K : Type} (lt : K → K → bool) `{!StrictWeakOrder lt}.

Lemma lt_asymmetric (a b : K) : lt a b = true → lt b a = false.
Proof.
  intros Hab. destruct (lt b a) eqn:Hba; [|done].
  pose proof (lt_transitive a b a Hab Hba) as Haa.
  by rewrite lt_irreflexive in Haa.
Qed.

Lemma insert_perm (x : nat * K) (l : list (nat * K)) :
  insert lt x l ≡ₚ x :: l.
Proof.
  induction l as [|y l IH]; [done|]. cbn.
  destruct (lt x.2 y.2); [done|].
  by rewrite IH, Permutation_swap.
Qed.

Lemma insert_first_perm (x : nat * K) (l : list (nat * K)) :
  insert_first lt x l ≡ₚ x :: l.
Proof.
  induction l as [|y l IH]; [done|]. cbn.
  destruct (lt y.2 x.2); [|done].
  by rewrite IH, Permutation_swap.
Qed.

Lemma insert_sorted (x : nat * K) (l : list (nat * K)) :
  StronglySorted (key_le lt) l → StronglySorted (key_le lt) (insert lt x l).
Proof.
  induction 1 as [|y l Hsorted IH Hy]; cbn; [by repeat constructor|].
  destruct (lt x.2 y.2) eqn:Hxy.
  - constructor; [by constructor|]. constructor.
    + by apply lt_asymmetric.
    + apply (Forall_impl _ _ _ Hy). intros z Hyz. unfold key_le in *.
      destruct (lt z.2 x.2) eqn:Hzx; [|done].
      by rewrite (lt_transitive z.2 x.2 y.2) in Hyz.
  - constructor; [done|]. rewrite insert_perm. by constructor.
Qed.

Lemma insert_first_sorted (x : nat * K) (l : list (nat * K)) :
  StronglySorted (key_le lt) l →
  StronglySorted (key_le lt) (insert_first lt x l).
Proof.
  induction 1 as [|y l Hsorted IH Hy]; cbn; [by repeat constructor|].
  destruct (lt y.2 x.2) eqn:Hyx.
  - constructor; [done|]. rewrite insert_first_perm.
    constructor; [by apply lt_asymmetric|done].
  - constructor; [by constructor|]. constructor; [done|].
    apply (Forall_impl _ _ _ Hy). intros z Hyz. unfold key_le in *.
    by apply (lt_incomparable z.2 y.2 x.2).
Qed.

(** A sort by insertion keeps the promise of [np.argsort]. *)
Lemma argsort_by_sorts (ins : nat * K → list (nat * K) → list (nat * K)) :
  (∀ x l, ins x l ≡ₚ x :: l) →
  (∀ x l, StronglySorted (key_le lt) l → StronglySorted (key_le lt) (ins x l)) →
  sorts lt (argsort_by ins).
Proof.
  intros Hperm Hsorted keys. unfold argsort_by.
  assert (StronglySorted (key_le lt)
            (foldl (λ sorted x, ins x sorted) [] (imap pair keys))
          ∧ foldl (λ sorted x, ins x sorted) [] (imap pair keys)
            ≡ₚ imap pair keys) as [Hordered Hpairs].
  { induction keys as [|k keys IH] using rev_ind; [by split; [constructor|]|].
    rewrite imap_app, foldl_app. cbn [imap foldl].
    destruct IH as [Hordered Hpairs]. split.
    - by apply Hsorted.
    - rewrite Hperm, Hpairs. by rewrite (comm (++)). }
  split.
  - rewrite Hpairs, fmap_imap.
    rewrite (imap_ext _ (λ j _, j) keys) by done.
    rewrite (imap_seq_0 keys (λ j, j)).
    change ((λ j : nat, j) <$> seq 0 (length keys))
      with (Datatypes.id <$> seq 0 (length keys)).
    by rewrite list_fmap_id.
  - assert (Forall (λ x : nat * K, keys !! x.1 = Some x.2)
              (foldl (λ sorted x, ins x sorted) [] (imap pair keys)))
      as Hrows.
    { rewrite Hpairs. apply Forall_forall. intros [i a] Hin.
      by apply elem_of_lookup_imap in Hin as (j & b & [= -> ->] & Hj). }
    clear Hpairs.
    induction Hordered as [|x l Hordered IH Hx]; [constructor|].
    apply Forall_cons in Hrows as [Hrow Hrows].
    rewrite fmap_cons. constructor; [by apply IH|].
    apply Forall_fmap, Forall_forall. intros y Hy.
    pose proof (proj1 (Forall_forall _ _) Hx y Hy) as Hxy.
    pose proof (proj1 (Forall_forall _ _) Hrows y Hy) as Hyrow.
    by exists y.2, x.2.
Qed.

Lemma stable_argsort_sorts : sorts lt (stable_argsort lt).
Proof. apply argsort_by_sorts; [apply insert_perm|apply insert_sorted]. Qed.

Lemma reversing_argsort_sorts : sorts lt (reversing_argsort lt).
Proof.
  apply argsort_by_sorts; [apply insert_first_perm|apply insert_first_sorted].
Qed.

Lemma StronglySorted_reverse {A} (R : relation A) (l : list A) :
  StronglySorted R l → StronglySorted (flip R) (reverse l).
Proof.
  induction 1 as [|x l Hsorted IH Hx]; [constructor|].
  rewrite reverse_cons. apply StronglySorted_app_2; [|done|by repeat constructor].
  intros y z Hy Hz. apply list_elem_of_singleton in Hz as ->.
  rewrite elem_of_reverse in Hy.
  by apply (proj1 (Forall_forall _ _) Hx).
Qed.

(** What [top_indices] returns with any [np.argsort] that keeps its
    promise: distinct rows of the array, best first; as many as asked for,
    or all when there are fewer; and no row returned is below a row left
    out. *)
Lemma top_indices_ranked (argsort : list K → list nat) (keys : list K)
    (top_k : Z) :
  sorts lt argsort →
  StronglySorted (not_below lt keys) (top_indices argsort keys top_k)
  ∧ NoDup (top_indices argsort keys top_k)
  ∧ (∀ i, i ∈ top_indices argsort keys top_k → (i < length keys)%nat)
  ∧ len (top_indices argsort keys top_k)
    = (if bool_decide (0 < top_k) then top_k `min` len keys
       else len keys - (- top_k) `min` len keys)
  ∧ (∀ i j, i ∈ top_indices argsort keys top_k →
       (j < length keys)%nat → j ∉ top_indices argsort keys top_k →
       not_below lt keys i j).
Proof.
  intros Hsorts. destruct (Hsorts keys) as [Hperm Hsorted].
  pose proof (Permutation_length Hperm) as Hlen. rewrite length_seq in Hlen.
  unfold top_indices, reversed, slice_from.
  set (m := Z.to_nat (adjust (len (argsort keys)) (- top_k))).
  assert (NoDup (argsort keys)) as Hnodup by (rewrite Hperm; apply NoDup_seq).
  rewrite <- (take_drop m (argsort keys)) in Hsorted, Hnodup.
  apply StronglySorted_app in Hsorted as (Hsplit & _ & Hdrop).
  split_and!.
  - by apply (StronglySorted_reverse (flip (not_below lt keys))).
  - rewrite reverse_Permutation. by apply NoDup_app in Hnodup as (_ & _ & ?).
  - intros i Hi. rewrite elem_of_reverse in Hi.
    apply subseteq_drop in Hi. rewrite Hperm in Hi.
    apply elem_of_seq in Hi. lia.
  - unfold len. rewrite length_reverse, length_drop. subst m.
    unfold len, adjust. rewrite Hlen.
    case_bool_decide; destruct (Z.ltb_spec (- top_k) 0); lia.
  - intros i j Hi Hj Hout. rewrite elem_of_reverse in Hi.
    apply (Hsplit j i); [|done].
    assert (j ∈ argsort keys) as Hin
      by (rewrite Hperm; apply elem_of_seq; lia).
    rewrite <- (take_drop m (argsort keys)) in Hin.
    apply elem_of_app in Hin as [?|Hin]; [done|].
    destruct Hout. by apply elem_of_reverse.
Qed.

End ArgsortFacts.

(** ** The order of [float64] similarities *)

Section FloatOrder.
Import Numpy.

Lemma compare_cont_eq (m1 m2 : positive) :
  PosDef.Pos.compare_cont Eq m1 m2 = (m1 ?= m2)%positive.
Proof. done. Qed.

Lemma sf_lt_rank (x y : spec_float) :
  sf_lt x y = true ↔ lex_lt (rank x) (rank y).
Proof.
  unfold sf_lt, SFltb, SFeqb, lex_lt.
  destruct x as [[]|[]| |[] m1 e1], y as [[]|[]| |[] m2 e2]; cbn;
    rewrite ?compare_cont_eq, ?Z.compare_refl, ?Pos.compare_refl; cbn;
    try (split; [done|lia]); try (split; [lia|done]);
    try (split; [intros _; lia|done]).
  all: destruct (Z.compare_spec e1 e2), (Pos.compare_spec m1 m2); cbn;
    split; try done; try lia.
Qed.

Lemma float_lt_rank (a b : float) :
  float_lt a b = true ↔ lex_lt (rank (Prim2SF a)) (rank (Prim2SF b)).
Proof.
  unfold float_lt.
  rewrite FloatAxioms.ltb_spec, !FloatAxioms.eqb_spec.
  apply sf_lt_rank.
Qed.

Lemma float_lt_rank_false (a b : float) :
  float_lt a b = false ↔ ¬ lex_lt (rank (Prim2SF a)) (rank (Prim2SF b)).
Proof. rewrite <- float_lt_rank. by destruct (float_lt a b). Qed.

#[export] Instance float_lt_order : StrictWeakOrder float_lt.
Proof.
  split.
  - intros a. apply float_lt_rank_false. unfold lex_lt. lia.
  - intros a b c. rewrite !float_lt_rank. unfold lex_lt. lia.
  - intros a b c. rewrite !float_lt_rank_false. unfold lex_lt. lia.
Qed.

End FloatOrder.

(** ** Search *)

Section SearchClaims.
Import Numpy Index.

(** What [search_index] returns once the query is embedded: the blocks of
    the selected rows, in the order of [top_rows]. *)
Lemma search_index_renders_top_rows (env : Env) (query : Chunker.text)
    (top_k : Z) (include_metadata : bool) (idx : index) (disk : option index)
    (query_embedding : list float) (others : list (list float))
    (rows : list nat) (blocks : list string) :
  initialized idx = true →
  embeddings_create env [query] = Ok (query_embedding :: others) →
  top_rows (np_argsort env) idx query_embedding top_k = Some rows →
  mapM (context_entry idx include_metadata) rows = Some blocks →
  search_index env query top_k include_metadata idx disk
  = (Some (String.concat Flow.nl blocks), idx, [EmbeddingsCreate [query]]).
Proof.
  intros Hready Hembed Hrows Hblocks. unfold search_index.
  rewrite Hready, Hembed. cbn [negb].
  rewrite Hrows. cbn [mbind option_bind]. by rewrite Hblocks.
Qed.

(** C1, as stated, fails.  The resident index holds three rows; the first
    two have the same similarity, 1, to the query [1, 0].  numpy's sort
    leaves the similarities [1, 1, 0] in the order that a stable sort
    gives, rows [2, 0, 1]; reversed, row 1 comes first.  Asked for one
    result, the search returns row 1, not row 0; asked for two, it returns
    row 1 ahead of row 0. *)
Lemma search_prefers_later_row_on_tie :
  Numpy.cosine_similarity [1; 0]%float [[1; 0]; [2; 0]; [0; 1]]%float
  = Ok [1; 1; 0]%float
  ∧ stable_argsort float_lt [1; 1; 0]%float = [2; 0; 1]%nat
  ∧ top_rows (stable_argsort float_lt) resident [1; 0]%float 1
    = Some [1%nat]
  ∧ top_rows (stable_argsort float_lt) resident [1; 0]%float 2
    = Some [1%nat; 0%nat]
  ∧ (search_index unreadable (String.list_ascii_of_string "which letter?")
       1 true resident None).1.1
    = Some "From notes.txt:

CONTENT: beta
".
Proof. split_and!; by vm_compute. Qed.

(** C1 (amended): [search_index] selects the rows by
    [np.argsort(similarities)[-top_k:][::-1]] and has no tie-breaking of
    its own.  With any [np.argsort] that returns the rows in ascending
    order of similarity, the selected rows are distinct and come in
    descending order of similarity; they are [top_k] rows, or all rows when
    there are fewer (for [top_k > 0]); and no selected row is less similar
    than a row left out.  Which of the rows of equal similarity are
    selected, and in which order, is left to the sort, whose default kind is
    not stable: a sort that keeps equal rows in row order makes the search
    prefer the later row, one that reverses them the earlier row, and both
    keep the promise of [np.argsort]. *)
Theorem search_orders_by_similarity_alone :
  (∀ (argsort : list float → list nat) (idx : index)
     (table : list (list float)) (query similarities : list float)
     (top_k : Z),
     sorts float_lt argsort →
     embeddings idx = Some table →
     cosine_similarity query table = Ok similarities →
     ∃ selected,
       top_rows argsort idx query top_k = Some selected
       ∧ StronglySorted (not_below float_lt similarities) selected
       ∧ NoDup selected
       ∧ (∀ i, i ∈ selected → (i < length similarities)%nat)
       ∧ len selected
         = (if bool_decide (0 < top_k) then top_k `min` len similarities
            else len similarities - (- top_k) `min` len similarities)
       ∧ (∀ i j, i ∈ selected → (j < length similarities)%nat →
            j ∉ selected → not_below float_lt similarities i j))
  ∧ sorts float_lt (stable_argsort float_lt)
  ∧ sorts float_lt (reversing_argsort float_lt)
  ∧ top_rows (stable_argsort float_lt) resident [1; 0]%float 1
    = Some [1%nat]
  ∧ top_rows (reversing_argsort float_lt) resident [1; 0]%float 1
    = Some [0%nat].
Proof.
  split_and!.
  - intros argsort idx table query similarities top_k Hsorts Htable Hsims.
    unfold top_rows. rewrite Htable. cbn. rewrite Hsims.
    eexists. split; [done|]. by apply top_indices_ranked.
  - apply stable_argsort_sorts, _.
  - apply reversing_argsort_sorts, _.
  - by vm_compute.
  - by vm_compute.
Qed.

Lemma search_orders_by_similarity_alone_witness :
  ∃ selected,
    top_rows (reversing_argsort float_lt) resident [1; 0]%float 2
    = Some selected
    ∧ StronglySorted (not_below float_lt [1; 1; 0]%float) selected
    ∧ NoDup selected
    ∧ (∀ i, i ∈ selected → (i < length [1; 1; 0]%float)%nat)
    ∧ len selected
      = (if bool_decide (0 < 2) then 2 `min` len [1; 1; 0]%float
         else len [1; 1; 0]%float - (- 2) `min` len [1; 1; 0]%float)
    ∧ (∀ i j, i ∈ selected → (j < length [1; 1; 0]%float)%nat →
         j ∉ selected → not_below float_lt [1; 1; 0]%float i j).
Proof.
  destruct search_orders_by_similarity_alone as (Hall & _ & Hsorts & _).
  apply (Hall (reversing_argsort float_lt) resident
           [[1; 0]; [2; 0]; [0; 1]]%float);
    [exact Hsorts|by vm_compute|by vm_compute].
Defined.

End SearchClaims.

(* ===================================================================== *)
(** * Further properties of the code *)
(* ===================================================================== *)

(** ** The stage machine: where a turn can lead *)

Section FlowMoves.
Import Flow.
Context (api_key : string) (remote : Client).

#[local] Abbreviation check' := (check_stage_completion api_key remote).
#[local] Abbreviation turn' := (process_conversation_turn api_key remote).

Lemma parse_complete_declared (stage : ConversationStage) (result id : string) :
  (parse_complete stage result).2 = Some id → id ∈ next_stages stage.
Proof.
  unfold parse_complete.
  assert ((match next_stages stage with
           | first :: _ => (true, Some first)
           | [] => (true, None)
           end).2 = Some id → id ∈ next_stages stage) as Hfallback.
  { destruct (next_stages stage) as [|first rest]; cbn; [done|].
    intros [= ->]. by left. }
  destruct (if bool_decide (1 < length (split_once ":" result))%nat
            then strip <$> split_once ":" result !! 1%nat else None)
    as [found|]; [|done].
  destruct (truthy found && contains (next_stages stage) found) eqn:Hfound;
    [|done].
  cbn. intros [= ->].
  apply andb_true_iff in Hfound as [_ Hin].
  by apply bool_decide_eq_true in Hin.
Qed.

(** Whatever the service replies, a verdict names a declared next stage. *)
Lemma check_declared (stage : ConversationStage) (msg : string)
    (st : ConversationState) (client : option Client) (id : string) :
  (check' stage msg st client).1.2 = Some id → id ∈ next_stages stage.
Proof.
  unfold check_stage_completion.
  destruct (if bool_decide (max_turns stage ≤ turns_in stage st)
            then match next_stages stage with
                 | [only] => Some only
                 | _ => None
                 end
            else None) as [only|] eqn:Hforced.
  - cbn. intros [= <-]. case_bool_decide; [|done].
    destruct (next_stages stage) as [|first [|? ?]]; try done.
    injection Hforced as ->. by left.
  - destruct (completion_criteria stage); [done|].
    destruct (resolve_client api_key remote client) as [[c|] log]; [|done].
    destruct (c (completion_prompt stage msg)); [|done].
    destruct (startswith _ _); [|done].
    apply parse_complete_declared.
Qed.

(** The state a turn leaves: untouched, counted, or counted and advanced
    along an edge the current stage declares. *)
Lemma turn_state_cases (msg : string) (st : ConversationState)
    (flow : ConversationFlow) (client : option Client) :
  (turn' msg st flow client).1.2 = st
  ∨ (turn' msg st flow client).1.2 = increment_turns st
  ∨ ∃ stage next,
      get_stage flow (current_stage_id st) = Some stage
      ∧ next ∈ next_stages stage
      ∧ truthy next = true
      ∧ (turn' msg st flow client).1.2
        = advance_stage (increment_turns st) next.
Proof.
  unfold process_conversation_turn.
  destruct (resolve_client api_key remote client) as [[c|] log0]; [|by left].
  destruct (get_stage flow (current_stage_id st)) as [stage|] eqn:Hstage;
    [|by left].
  pose proof (check_declared stage msg (increment_turns st) (Some c)) as Hdecl.
  destruct (check' stage msg (increment_turns st) (Some c))
    as [[is_complete next] log].
  destruct is_complete, next as [next|]; try (right; by left).
  destruct (truthy next) eqn:Hnext; [|right; by left].
  right. right. exists stage, next.
  split_and!; [done|by apply Hdecl|done|].
  by destruct (get_stage flow (Some next)).
Qed.

End FlowMoves.

(** ** Trimming *)

Section StripFacts.

Lemma lstrip_all_space (s : string) : all_space s → lstrip s = "".
Proof.
  unfold all_space. induction s as [|c s IH]; [done|].
  cbn. intros Hs. apply Forall_cons in Hs as [-> Hs]. by apply IH.
Qed.

Lemma rstrip_all_space (s : string) : all_space s → rstrip s = "".
Proof.
  unfold all_space. induction s as [|c s IH]; [done|].
  cbn. intros Hs. apply Forall_cons in Hs as [-> Hs]. by rewrite IH.
Qed.

Lemma rstrip_padding (s r : string) :
  all_space r → rstrip (s +:+ r) = rstrip s.
Proof.
  intros Hr. induction s as [|c s IH]; simpl.
  - by apply rstrip_all_space.
  - by rewrite IH.
Qed.

Lemma strip_padding_r (s r : string) :
  all_space r → strip (s +:+ r) = strip s.
Proof.
  intros Hr. unfold strip. induction s as [|c s IH]; simpl.
  - by rewrite lstrip_all_space.
  - destruct (is_space c); [done|].
    by apply (rstrip_padding (String c s)).
Qed.

Lemma strip_padding_l (l s : string) :
  all_space l → strip (l +:+ s) = strip s.
Proof.
  unfold all_space, strip. induction l as [|c l IH]; [done|].
  simpl. intros Hl. apply Forall_cons in Hl as [-> Hl]. by apply IH.
Qed.

(** White space around a string does not reach its trimmed form. *)
Lemma strip_padding (l s r : string) :
  all_space l → all_space r → strip (l +:+ s +:+ r) = strip s.
Proof.
  intros Hl Hr. by rewrite strip_padding_l, strip_padding_r.
Qed.

End StripFacts.

(** ** The stage machine: properties of every flow *)

Section FlowProperties.
Import Flow.
Context (api_key : string) (remote : Client).

#[local] Abbreviation check'' := (check_stage_completion api_key remote).
#[local] Abbreviation turn'' := (process_conversation_turn api_key remote).

(** X1: a turn never takes the conversation off the declared graph.
    Whatever the service replies, after [process_conversation_turn] the
    current stage is the one it was or one of the [next_stages] of the
    stage it was. *)
Theorem turn_follows_declared_edge (msg : string) (st : ConversationState)
    (flow : ConversationFlow) (client : option Client) :
  current_stage_id (turn'' msg st flow client).1.2 = current_stage_id st
  ∨ ∃ stage next,
      get_stage flow (current_stage_id st) = Some stage
      ∧ next ∈ next_stages stage
      ∧ current_stage_id (turn'' msg st flow client).1.2 = Some next.
Proof.
  destruct (turn_state_cases api_key remote msg st flow client)
    as [->|[->|(stage & next & Hstage & Hnext & _ & ->)]];
    [by left|by left|].
  right. by exists stage, next.
Qed.

(** X2: a stage without next stages is terminal.  Its check never names a
    next stage, whatever its criteria and the reply of the service, and no
    sequence of turns leaves it. *)
Theorem stage_without_next_is_terminal (stage : ConversationStage) :
  next_stages stage = [] →
  (∀ msg st client, (check'' stage msg st client).1.2 = None)
  ∧ (∀ flow inputs st,
       get_stage flow (current_stage_id st) = Some stage →
       current_stage_id (run_turns api_key remote flow inputs st)
       = current_stage_id st).
Proof.
  intros Hnone.
  assert (∀ msg st client, (check'' stage msg st client).1.2 = None) as Hcheck.
  { intros msg st client.
    destruct ((check'' stage msg st client).1.2) as [id|] eqn:Hid; [|done].
    apply check_declared in Hid. rewrite Hnone in Hid.
    by apply elem_of_nil in Hid. }
  split; [done|].
  intros flow inputs. induction inputs as [|[msg client] inputs IH]; [done|].
  intros st Hstage. cbn [run_turns].
  assert (current_stage_id (turn'' msg st flow client).1.2
          = current_stage_id st) as Hstay.
  { destruct (turn_state_cases api_key remote msg st flow client)
      as [->|[->|(stage' & next & Hstage' & Hnext & _)]]; [done|done|].
    rewrite Hstage in Hstage'. injection Hstage' as <-.
    rewrite Hnone in Hnext. by apply elem_of_nil in Hnext. }
  rewrite IH; rewrite Hstay; done.
Qed.

(** X3: in a flow without dangling reference the failure of a missing
    stage cannot occur.  No turn ends in the [AttributeError] that a lookup
    of a stage the flow does not hold leads to; a conversation that is in a
    stage of the flow is in a stage of the flow after every turn and every
    sequence of turns, however the turns end; and a turn that returns a
    system message returns the system prompt of the stage the conversation
    is in when the turn ends. *)
Theorem closed_flow_has_no_missing_stage (flow : ConversationFlow) :
  flow_closed flow →
  (∀ msg st client,
     (turn'' msg st flow client).1.1 ≠ Raised none_has_no_system_prompt)
  ∧ (∀ msg st client system_message,
       is_Some (get_stage flow (current_stage_id st)) →
       (turn'' msg st flow client).1.1 = Returned (Some system_message) →
       is_Some (get_stage flow
                  (current_stage_id (turn'' msg st flow client).1.2))
       ∧ Some system_message
         = system_prompt
             <$> get_stage flow
                   (current_stage_id (turn'' msg st flow client).1.2))
  ∧ (∀ inputs st,
       is_Some (get_stage flow (current_stage_id st)) →
       is_Some (get_stage flow
                  (current_stage_id (run_turns api_key remote flow inputs st)))).
Proof.
  intros Hclosed.
  assert (∀ st stage next,
            get_stage flow (current_stage_id st) = Some stage →
            next ∈ next_stages stage →
            is_Some (get_stage flow (Some next))) as Hedge.
  { intros st stage next Hstage Hnext.
    destruct (current_stage_id st) as [cur|]; [|done]. cbn in *.
    pose proof (Hclosed cur stage Hstage) as Hall.
    by apply (proj1 (Forall_forall _ _) Hall). }
  assert (∀ msg st client,
            is_Some (get_stage flow (current_stage_id st)) →
            is_Some (get_stage flow
                       (current_stage_id (turn'' msg st flow client).1.2)))
    as Hstep.
  { intros msg st client Hin.
    destruct (turn_state_cases api_key remote msg st flow client)
      as [->|[->|(stage & next & Hstage & Hnext & _ & ->)]]; [done|done|].
    by apply (Hedge st stage next). }
  split_and!.
  - intros msg st client. unfold process_conversation_turn.
    destruct (resolve_client api_key remote client) as [[c|] log0]; [|done].
    destruct (get_stage flow (current_stage_id st)) as [stage|] eqn:Hstage;
      [|done].
    pose proof (check_declared api_key remote stage msg (increment_turns st)
                  (Some c)) as Hdecl.
    destruct (check'' stage msg (increment_turns st) (Some c))
      as [[[|] [next|]] log]; try done.
    destruct (truthy next); [|done].
    by destruct (Hedge st stage next Hstage (Hdecl next eq_refl))
      as [entered ->].
  - intros msg st client system_message Hin Hreturned.
    split; [by apply Hstep|].
    revert Hreturned. unfold process_conversation_turn.
    destruct (resolve_client api_key remote client) as [[c|] log0]; [|done].
    destruct Hin as [stage Hstage]. rewrite Hstage.
    pose proof (check_declared api_key remote stage msg (increment_turns st)
                  (Some c)) as Hdecl.
    destruct (check'' stage msg (increment_turns st) (Some c))
      as [[[|] [next|]] log]; cbn;
      try (intros [= <-]; by rewrite Hstage).
    destruct (truthy next); cbn; [|intros [= <-]; by rewrite Hstage].
    destruct (Hedge st stage next Hstage (Hdecl next eq_refl))
      as [entered Hentered].
    cbn in Hentered. rewrite Hentered. cbn. rewrite Hentered.
    by intros [= <-].
  - intros inputs. induction inputs as [|[msg client] inputs IH]; [done|].
    intros st Hin. cbn [run_turns]. by apply IH, Hstep.
Qed.

(** X4: [completed_stages] is a history that is only added to: whatever
    the turns and their outcomes, the list before them is a prefix of the
    list after them. *)
Theorem completed_stages_append_only (flow : ConversationFlow)
    (inputs : list (string * option Client)) (st : ConversationState) :
  completed_stages st
  `prefix_of` completed_stages (run_turns api_key remote flow inputs st).
Proof.
  revert st. induction inputs as [|[msg client] inputs IH]; [done|].
  intros st. cbn [run_turns]. etrans; [|apply IH].
  destruct (turn_state_cases api_key remote msg st flow client)
    as [->|[->|(stage & next & _ & _ & _ & ->)]]; [done|done|].
  cbn. destruct (current_stage_id st) as [cur|]; [|done].
  destruct (truthy cur); [|done]. by apply prefix_app_r.
Qed.

(** X5: a turn that cannot be processed changes nothing.  Without a client
    (none passed and no API key), or with a current stage id the flow does
    not hold, the call returns [None] as system message and leaves the
    state as it was, its turn counters included, without consulting the
    service. *)
Theorem unprocessed_turn_leaves_state (msg : string) (st : ConversationState)
    (flow : ConversationFlow) (client : option Client) :
  (resolve_client api_key remote client).1 = None
  ∨ get_stage flow (current_stage_id st) = None →
  (turn'' msg st flow client).1 = (Returned None, st)
  ∧ silent (turn'' msg st flow client).2.
Proof.
  intros Hwhy. unfold process_conversation_turn.
  pose proof (resolve_client_silent api_key remote client) as Hsilent.
  destruct (resolve_client api_key remote client) as [[c|] log0]; cbn in *.
  - destruct Hwhy as [?| ->]; [done|]. split; [done|].
    apply Forall_app. split; [done|by repeat constructor].
  - split; [done|]. apply Forall_app. split; [done|by repeat constructor].
Qed.

(** X6: a state survives [to_dict] and [from_dict] unchanged, whatever it
    holds. *)
Theorem state_dict_round_trip (st : ConversationState) :
  state_from_dict (state_to_dict st) = st.
Proof. by destruct st. Qed.

(** X7: white space around the reply of the service does not change the
    verdict: the reply is trimmed before it is read. *)
Theorem reply_padding_ignored (stage : ConversationStage) (msg : string)
    (st : ConversationState) (c c' : Client) (reply left right : string) :
  c (completion_prompt stage msg) = Content reply →
  c' (completion_prompt stage msg) = Content (left +:+ reply +:+ right) →
  all_space left → all_space right →
  check'' stage msg st (Some c') = check'' stage msg st (Some c).
Proof.
  intros Hreply Hpadded Hleft Hright. unfold check_stage_completion.
  destruct (if bool_decide (max_turns stage ≤ turns_in stage st)
            then match next_stages stage with
                 | [only] => Some only
                 | _ => None
                 end
            else None); [done|].
  destruct (completion_criteria stage); [done|].
  cbn [resolve_client]. rewrite Hreply, Hpadded.
  by rewrite strip_padding.
Qed.

End FlowProperties.

Lemma customer_flow_closed : Flow.flow_closed Flow.customer_flow.
Proof. apply (bool_decide_unpack _). by vm_compute. Qed.

Lemma stage_without_next_is_terminal_witness :
  Flow.current_stage_id
    (Flow.run_turns "key" (Flow.complete_into "greeting") Flow.customer_flow
       [("Thanks", None); ("Start over", None)] Flow.in_closing)
  = Flow.current_stage_id Flow.in_closing.
Proof.
  apply (proj2 (stage_without_next_is_terminal "key"
                  (Flow.complete_into "greeting") Flow.closing_stage eq_refl)).
  by vm_compute.
Defined.

Lemma closed_flow_has_no_missing_stage_witness :
  is_Some (Flow.get_stage Flow.customer_flow
             (Flow.current_stage_id
                (Flow.run_turns "key" (Flow.complete_into "escalation")
                   Flow.customer_flow
                   [("Hello", None); ("It broke", None); ("Help", None)]
                   (Flow.start_state Flow.customer_flow)))).
Proof.
  apply (proj2 (proj2 (closed_flow_has_no_missing_stage "key"
                         (Flow.complete_into "escalation") Flow.customer_flow
                         customer_flow_closed))).
  vm_compute. by eexists.
Defined.

Lemma unprocessed_turn_leaves_state_witness :
  (Flow.process_conversation_turn "" Flow.always_incomplete "Hello"
     Flow.in_resolution Flow.customer_flow None).1
  = (Flow.Returned None, Flow.in_resolution)
  ∧ silent (Flow.process_conversation_turn "" Flow.always_incomplete "Hello"
              Flow.in_resolution Flow.customer_flow None).2.
Proof.
  apply (unprocessed_turn_leaves_state "" Flow.always_incomplete). by left.
Defined.

Lemma reply_padding_ignored_witness :
  Flow.check_stage_completion "key" Flow.always_incomplete Flow.problem_stage
    "It broke" Flow.after_first_turn (Some (Flow.complete_into "escalation"))
  = Flow.check_stage_completion "key" Flow.always_incomplete Flow.problem_stage
      "It broke" Flow.after_first_turn
      (Some (λ _, Content "COMPLETE: escalation")).
Proof.
  apply (reply_padding_ignored "key" Flow.always_incomplete Flow.problem_stage
           "It broke" Flow.after_first_turn
           (λ _, Content "COMPLETE: escalation")
           (Flow.complete_into "escalation")
           "COMPLETE: escalation" " " " ");
    [done|done|by repeat constructor|by repeat constructor].
Defined.

(** ** The chunkers: what the chunks are *)

Section ChunkProperties.
Import Chunker.

Lemma window_length (t : text) (size i : nat) :
  length (window t size i) = (size `min` (length t - i))%nat.
Proof. unfold window. by rewrite length_take, length_drop. Qed.

Lemma window_piece (t : text) (size i : nat) :
  window t size i = take (length (window t size i)) (drop i t).
Proof.
  rewrite window_length. unfold window.
  destruct (decide (size ≤ length t - i)%nat).
  - by rewrite Nat.min_l by done.
  - rewrite Nat.min_r by lia.
    rewrite !take_ge; [done| |]; rewrite length_drop; lia.
Qed.

(** The windows that are kept, one by one. *)
Lemma elem_of_spec_windows (t : text) (size step threshold i : nat) (w : text) :
  (i, w) ∈ spec_windows t size step threshold
  ↔ (i < length t)%nat ∧ (i mod step = 0)%nat
    ∧ w = window t size i ∧ (threshold ≤ length w)%nat.
Proof.
  unfold spec_windows, window_offsets.
  rewrite list_elem_of_filter, list_elem_of_fmap. cbn. split.
  - intros (Hkeep & j & [= -> ->] & Hj).
    apply list_elem_of_filter in Hj as [Hmod Hj].
    apply elem_of_seq in Hj. split_and!; [lia|done|done|done].
  - intros (Hlt & Hmod & -> & Hkeep). split; [done|].
    exists i. split; [done|].
    apply list_elem_of_filter. split; [done|]. apply elem_of_seq. lia.
Qed.

Lemma elem_of_spec_chunks (t : text) (size step threshold : nat) (w : text) :
  w ∈ spec_chunks t size step threshold
  ↔ ∃ i, (i < length t)%nat ∧ (i mod step = 0)%nat
         ∧ w = window t size i ∧ (threshold ≤ length w)%nat.
Proof.
  unfold spec_chunks. rewrite list_elem_of_fmap. split.
  - intros ([i w'] & -> & Hin). exists i.
    by apply elem_of_spec_windows in Hin.
  - intros (i & Hi). exists (i, w). split; [done|].
    by apply elem_of_spec_windows.
Qed.

(** No window is kept exactly when none can have fifty characters. *)
Lemma no_window_kept (t : text) (size step : nat) :
  (0 < step)%nat →
  spec_chunks t size step 50 = [] ↔ (length t < 50 ∨ size < 50)%nat.
Proof.
  intros Hstep. split.
  - intros Hnone.
    destruct (decide (length t < 50)%nat); [by left|].
    destruct (decide (size < 50)%nat); [by right|].
    assert (window t size 0 ∈ spec_chunks t size step 50) as Hin.
    { apply elem_of_spec_chunks. exists 0%nat.
      split_and!; [lia| |done|rewrite window_length; lia].
      apply Nat.Div0.mod_0_l. }
    rewrite Hnone in Hin. by apply elem_of_nil in Hin.
  - intros Hshort. apply elem_of_nil_inv. intros w Hin.
    apply elem_of_spec_chunks in Hin as (i & Hi & _ & -> & Hkeep).
    rewrite window_length in Hkeep. lia.
Qed.

(** X8: with a chunk size of at least 50, [chunk_text] loses at most the
    last 49 characters of a text: every position that has 50 characters
    from it to the end of the text lies in a chunk that is returned, the
    chunk being the text from some offset on. *)
Theorem chunk_text_covers (t : text) (chunk_size overlap : Z) (p : nat) :
  0 ≤ overlap < chunk_size →
  50 ≤ chunk_size →
  (p + 50 ≤ length t)%nat →
  ∃ chunks k chunk offset,
    chunk_text t chunk_size overlap = Ok chunks
    ∧ chunks !! k = Some chunk
    ∧ chunk = take (length chunk) (drop offset t)
    ∧ (offset ≤ p < offset + length chunk)%nat.
Proof.
  intros Hcfg Hsize Hp.
  set (step := Z.to_nat (chunk_size - overlap)).
  set (size := Z.to_nat chunk_size).
  set (offset := (p / step * step)%nat).
  assert (0 < step)%nat as Hstep by lia.
  assert (offset ≤ p < offset + step)%nat as Hoffset.
  { unfold offset. pose proof (Nat.div_mod_eq p step).
    pose proof (Nat.mod_upper_bound p step). lia. }
  assert (window t size offset ∈ spec_chunks t size step 50) as Hin.
  { apply elem_of_spec_chunks. exists offset.
    split_and!; [lia| |done|rewrite window_length; lia].
    unfold offset. apply Nat.Div0.mod_mul. }
  apply list_elem_of_lookup in Hin as [k Hk].
  exists (spec_chunks t size step 50), k, (window t size offset), offset.
  split_and!; [by apply chunk_text_windows|done|apply window_piece| |].
  - lia.
  - rewrite window_length. lia.
Qed.

(** X9: [chunk_text] returns no chunk exactly when the text or the chunk
    size is under 50 characters: a chunk size below 50 yields nothing for
    any text, and a text of at least 50 characters is never lost whole
    otherwise. *)
Theorem chunk_text_empty_iff (t : text) (chunk_size overlap : Z) :
  0 ≤ overlap < chunk_size →
  chunk_text t chunk_size overlap = Ok []
  ↔ (length t < 50)%nat ∨ chunk_size < 50.
Proof.
  intros Hcfg. rewrite chunk_text_windows by done.
  pose proof (no_window_kept t (Z.to_nat chunk_size)
                (Z.to_nat (chunk_size - overlap)) ltac:(lia)) as Hnone.
  split.
  - intros [= Hempty]. apply Hnone in Hempty. lia.
  - intros Hshort. f_equal. apply Hnone. lia.
Qed.

(** X10: every chunk [chunk_text] returns is a piece of the text that
    starts at a multiple of the step, and has between 50 and [chunk_size]
    characters. *)
Theorem chunk_text_chunks_are_pieces (t : text) (chunk_size overlap : Z) :
  0 ≤ overlap < chunk_size →
  ∃ chunks,
    chunk_text t chunk_size overlap = Ok chunks
    ∧ ∀ chunk, chunk ∈ chunks →
        50 ≤ len chunk ≤ chunk_size
        ∧ ∃ k : nat,
            chunk = take (length chunk)
                         (drop (k * Z.to_nat (chunk_size - overlap)) t)
            ∧ (k * Z.to_nat (chunk_size - overlap) + length chunk
               ≤ length t)%nat.
Proof.
  intros Hcfg. eexists. split; [by apply chunk_text_windows|].
  intros chunk Hin.
  apply elem_of_spec_chunks in Hin as (i & Hi & Hmod & -> & Hkeep).
  rewrite window_length in *. unfold len. rewrite window_length.
  split; [lia|].
  exists (i / Z.to_nat (chunk_size - overlap))%nat.
  apply Nat.Div0.div_exact in Hmod.
  rewrite (Nat.mul_comm _ (Z.to_nat _)), <- Hmod.
  split; [|lia].
  rewrite <- window_length. apply window_piece.
Qed.

(** X11: [hierarchical_chunking] nests its chunks.  Every chunk it returns
    is of level 0 or 1; a level-0 chunk is a piece of the text; a level-1
    chunk names a parent, which is a level-0 chunk of the same result with
    that index, and is the piece of the parent's text that starts at the
    level-1 chunk's own index. *)
Theorem hierarchical_chunks_are_nested (t : text)
    (size0 overlap0 size1 overlap1 : Z) :
  0 ≤ overlap0 < size0 →
  0 ≤ overlap1 < size1 →
  ∃ chunks,
    hierarchical_chunking t (size0, size1) (overlap0, overlap1) = Ok chunks
    ∧ ∀ c, c ∈ chunks →
        (chunk_level c = 0
         ∧ chunk_parent_index c = None
         ∧ ∃ offset : nat,
             chunk_body c = take (length (chunk_body c)) (drop offset t))
        ∨ (chunk_level c = 1
           ∧ ∃ parent (offset : nat),
               parent ∈ chunks
               ∧ chunk_level parent = 0
               ∧ chunk_parent_index c = Some (chunk_index parent)
               ∧ chunk_index c = Z.of_nat offset
               ∧ chunk_body c
                 = take (length (chunk_body c))
                        (drop offset (chunk_body parent))).
Proof.
  intros Hcfg0 Hcfg1. eexists.
  split; [by apply hierarchical_chunking_windows|].
  intros c Hin. unfold spec_hierarchy in *.
  apply list_elem_of_In, in_concat in Hin as (group & Hgroup & Hc).
  apply list_elem_of_In in Hgroup, Hc.
  pose proof Hgroup as Hgroup'.
  apply elem_of_lookup_imap in Hgroup' as (i & large & -> & Hlarge).
  apply elem_of_cons in Hc as [->|Hc].
  - left. cbn. split_and!; [done|done|].
    apply list_elem_of_lookup_2, elem_of_spec_chunks in Hlarge
      as (offset & _ & _ & -> & _).
    exists offset. apply window_piece.
  - right. apply list_elem_of_fmap in Hc as ([offset w] & -> & Hw).
    apply elem_of_spec_windows in Hw as (_ & _ & -> & _).
    cbn. split; [done|].
    exists (Chunk large 0 (Z.of_nat i) None), offset.
    split_and!; try done; [|apply window_piece].
    apply list_elem_of_In, in_concat. eexists.
    split; apply list_elem_of_In; [exact Hgroup|by left].
Qed.

End ChunkProperties.

Lemma chunk_text_covers_witness :
  ∃ chunks k chunk offset,
    Chunker.chunk_text Chunker.sixty_chars 500 100 = Ok chunks
    ∧ chunks !! k = Some chunk
    ∧ chunk = take (length chunk) (drop offset Chunker.sixty_chars)
    ∧ (offset ≤ 7 < offset + length chunk)%nat.
Proof.
  apply (chunk_text_covers Chunker.sixty_chars 500 100 7);
    [lia|lia|vm_compute; lia].
Defined.

Lemma chunk_text_empty_iff_witness :
  Chunker.chunk_text Chunker.sixty_chars 40 10 = Ok []
  ↔ (length Chunker.sixty_chars < 50)%nat ∨ 40 < 50.
Proof. apply (chunk_text_empty_iff Chunker.sixty_chars 40 10). lia. Defined.

Lemma chunk_text_chunks_are_pieces_witness :
  ∃ chunks,
    Chunker.chunk_text Chunker.sixty_chars 55 50 = Ok chunks
    ∧ ∀ chunk, chunk ∈ chunks →
        50 ≤ len chunk ≤ 55
        ∧ ∃ k : nat,
            chunk = take (length chunk)
                         (drop (k * Z.to_nat (55 - 50)) Chunker.sixty_chars)
            ∧ (k * Z.to_nat (55 - 50) + length chunk
               ≤ length Chunker.sixty_chars)%nat.
Proof. apply (chunk_text_chunks_are_pieces Chunker.sixty_chars 55 50). lia. Defined.

Lemma hierarchical_chunks_are_nested_witness :
  ∃ chunks,
    Chunker.hierarchical_chunking Chunker.sixty_chars (40, 20) (10, 5)
    = Ok chunks
    ∧ ∀ c, c ∈ chunks →
        (Chunker.chunk_level c = 0
         ∧ Chunker.chunk_parent_index c = None
         ∧ ∃ offset : nat,
             Chunker.chunk_body c
             = take (length (Chunker.chunk_body c))
                    (drop offset Chunker.sixty_chars))
        ∨ (Chunker.chunk_level c = 1
           ∧ ∃ parent (offset : nat),
               parent ∈ chunks
               ∧ Chunker.chunk_level parent = 0
               ∧ Chunker.chunk_parent_index c
                 = Some (Chunker.chunk_index parent)
               ∧ Chunker.chunk_index c = Z.of_nat offset
               ∧ Chunker.chunk_body c
                 = take (length (Chunker.chunk_body c))
                        (drop offset (Chunker.chunk_body parent))).
Proof.
  apply (hierarchical_chunks_are_nested Chunker.sixty_chars 40 10 20 5); lia.
Defined.

(** ** Building and searching the index *)

Section IndexProperties.
Import Numpy Chunker Index.

(** Membership in a log, event by event. *)
Ltac in_log :=
  rewrite ?not_elem_of_app, ?elem_of_app, ?not_elem_of_cons, ?elem_of_cons,
    ?elem_of_nil;
  first [ by intuition | by eauto 10 ].

Lemma batches_of_windows (docs : list text) :
  batches_of docs
  = map (λ k, take 10 (drop (k * 10) docs))
        (seq 0 ((length docs + 10 - 1) / 10)).
Proof.
  unfold batches_of. rewrite range_from_zero by (unfold len; lia).
  rewrite to_nat_len, multiples_below by lia.
  change (Z.to_nat 10) with 10%nat.
  rewrite !map_map. apply map_ext. intros k.
  by rewrite (slice_window docs (k * 10) 10) by lia.
Qed.

Lemma concat_windows {A} (n : nat) (l : list A) :
  (length l ≤ n * 10)%nat →
  concat (map (λ k, take 10 (drop (k * 10) l)) (seq 0 n)) = l.
Proof.
  revert l. induction n as [|n IH]; intros l Hlen.
  - destruct l; [done|simpl in Hlen; lia].
  - transitivity (take 10 l ++ drop 10 l); [|apply take_drop].
    cbn [seq map concat]. change (0 * 10)%nat with 0%nat.
    rewrite drop_0. f_equal.
    rewrite <- seq_shift, map_map.
    etrans; [|apply (IH (drop 10 l)); rewrite length_drop; lia].
    f_equal. apply map_ext. intros k. rewrite drop_drop.
    by replace (S k * 10)%nat with (10 + k * 10)%nat by lia.
Qed.

Lemma concat_batches_of (docs : list text) :
  concat (batches_of docs) = docs.
Proof.
  rewrite batches_of_windows. apply concat_windows.
  pose proof (Nat.mul_succ_div_gt (length docs + 10 - 1) 10). lia.
Qed.

(** X12: the embedding loop of [create_index] cuts the documents into
    batches without losing or reordering any: the batches, one after the
    other, are the documents; every batch holds between one and ten of
    them; and there are as many batches as tens are needed. *)
Theorem batches_partition_documents (docs : list text) :
  concat (batches_of docs) = docs
  ∧ Forall (λ batch, (1 ≤ length batch ≤ 10)%nat) (batches_of docs)
  ∧ length (batches_of docs) = ((length docs + 9) / 10)%nat.
Proof.
  rewrite batches_of_windows.
  replace (length docs + 10 - 1)%nat with (length docs + 9)%nat by lia.
  pose proof (Nat.Div0.mul_div_le (length docs + 9) 10) as Hle.
  pose proof (Nat.mul_succ_div_gt (length docs + 9) 10 ltac:(lia)) as Hgt.
  split_and!.
  - apply concat_windows. lia.
  - apply Forall_forall. intros batch Hin.
    apply list_elem_of_fmap in Hin as (k & -> & Hk).
    apply elem_of_seq in Hk.
    rewrite length_take, length_drop. lia.
  - by rewrite length_map, length_seq.
Qed.

Lemma embed_batches_pointwise (env : Env) (f : text → list float)
    (batches : list (list text)) :
  (∀ batch, embeddings_create env batch = Ok (f <$> batch)) →
  embed_batches env batches
  = (Ok (f <$> concat batches), EmbeddingsCreate <$> batches).
Proof.
  intros Hservice. induction batches as [|batch rest IH]; [done|].
  cbn [embed_batches]. rewrite Hservice, IH. cbn.
  by rewrite fmap_app.
Qed.

Lemma embed_batches_raises (env : Env) (batches : list (list text))
    (batch : list text) (e : exn) :
  batch ∈ batches →
  embeddings_create env batch = Raise e →
  ∃ e', (embed_batches env batches).1 = Raise e'.
Proof.
  intros Hin Hfail. induction batches as [|first rest IH].
  - by apply elem_of_nil in Hin.
  - cbn [embed_batches].
    destruct (embeddings_create env first) as [vectors|e'] eqn:Hfirst;
      [|by eexists].
    apply elem_of_cons in Hin as [->|Hin]; [congruence|].
    destruct (IH Hin) as [e' He'].
    destruct (embed_batches env rest) as [r log]. cbn in *. subst r.
    by eexists.
Qed.

Lemma embed_batches_no_write (env : Env) (batches : list (list text))
    (path : string) :
  WriteFile path ∉ (embed_batches env batches).2.
Proof.
  induction batches as [|first rest IH]; [by apply not_elem_of_nil|].
  cbn [embed_batches].
  destruct (embeddings_create env first) as [vectors|e'].
  - destruct (embed_batches env rest) as [r log]. cbn in *.
    apply not_elem_of_cons. by split.
  - cbn. apply not_elem_of_cons. split; [done|apply not_elem_of_nil].
Qed.

(** X13: batching is invisible in the table of embeddings.  With a service
    that embeds every input on its own, the embedding loop gives the
    embedding of document [i] as row [i], whatever the number of documents,
    and sends one request per batch. *)
Theorem batched_embedding_keeps_row_order (env : Env)
    (f : text → list float) (docs : list text) :
  (∀ batch, embeddings_create env batch = Ok (f <$> batch)) →
  embed_batches env (batches_of docs)
  = (Ok (f <$> docs), EmbeddingsCreate <$> batches_of docs).
Proof.
  intros Hservice. rewrite (embed_batches_pointwise env f) by done.
  by rewrite concat_batches_of.
Qed.

Lemma collect_rows_no_save_error (env : Env) (use_advanced_processing : bool)
    (files : list string) (msg : string) :
  UiError msg ∉ (collect_rows env use_advanced_processing files).2.
Proof.
  unfold collect_rows, process_documents_batch.
  destruct use_advanced_processing; [|cbn; in_log].
  destruct files; [cbn; in_log|].
  destruct (truthy (api_key env)); cbn; in_log.
Qed.

Lemma documents_found_no_files (env : Env) (use_advanced_processing : bool) :
  documents_found env use_advanced_processing [] = [].
Proof. by destruct use_advanced_processing. Qed.


(** X15: a build whose embedding fails changes nothing of the index.
    When one of the requests of the embedding loop raises, for whichever
    batch, [create_index] leaves the resident index and the persisted index
    as they were and writes neither [index.pkl] nor [index_summary.json],
    however many batches were embedded before. *)
Theorem failed_embedding_keeps_index (env : Env) (directory_path : string)
    (use_advanced_processing : bool) (idx : index) (disk : option index)
    (batch : list text) (e : exn) :
  batch ∈ batches_of (documents_found env use_advanced_processing
                        (files_under env directory_path)) →
  embeddings_create env batch = Raise e →
  (create_index env directory_path use_advanced_processing idx disk).1
  = (idx, disk)
  ∧ (WriteFile "index.pkl"
     ∉ (create_index env directory_path use_advanced_processing idx disk).2)
  ∧ (WriteFile "index_summary.json"
     ∉ (create_index env directory_path use_advanced_processing idx disk).2).
Proof.
  intros Hin Hfail. unfold create_index, documents_found in *.
  destruct (is_dir env directory_path); cbn [negb];
    [|split_and!; [done|cbn; in_log..]].
  destruct (files_under env directory_path) as [|file files];
    [split_and!; [done|cbn; in_log..]|].
  pose proof (collect_rows_no_write env use_advanced_processing
                (file :: files)) as Hquiet.
  destruct (collect_rows env use_advanced_processing (file :: files))
    as [[[rows new_summaries] new_keywords] log].
  cbn [fst snd] in *.
  pose proof (Hquiet "index.pkl") as Hq1.
  pose proof (Hquiet "index_summary.json") as Hq2.
  destruct (rows.*1.*1) as [|doc docs] eqn:Hrows.
  { split_and!; [done|cbn [snd]; in_log..]. }
  assert (∃ loaded configured,
            load_config (config env) = (loaded, configured)
            ∧ (WriteFile "index.pkl" ∉ configured)
            ∧ (WriteFile "index_summary.json" ∉ configured))
    as (loaded & configured & -> & Hc1 & Hc2).
  { destruct (config env); eexists _, _; (split; [done|]);
      cbn; split; in_log. }
  destruct loaded as [[]|e0]; [|split_and!; [done|cbn [snd]; in_log..]].
  destruct (embed_batches_raises env _ _ _ Hin Hfail) as [e' He'].
  pose proof (embed_batches_no_write env (batches_of (doc :: docs)))
    as Hcalls.
  destruct (embed_batches env (batches_of (doc :: docs))) as [r calls].
  cbn [fst snd] in *. subst r.
  pose proof (Hcalls "index.pkl"). pose proof (Hcalls "index_summary.json").
  split_and!; [done|cbn [snd]; in_log..].
Qed.

End IndexProperties.

Section SearchProperties.
Import Numpy Chunker Index.

(** One similarity per row, when the rows have the dimension of the
    query. *)
Lemma cosine_similarity_count (query : list float) (table : list (list float))
    (dim : nat) :
  table ≠ [] →
  Forall (λ row, length row = dim) table →
  length query = dim →
  ∃ similarities,
    cosine_similarity query table = Ok similarities
    ∧ length similarities = length table.
Proof.
  intros Hrows Hdim Hquery.
  rewrite cosine_similarity_rows; [|done|].
  - eexists. split; [done|]. by rewrite length_map.
  - eapply Forall_impl; [exact Hdim|]. intros row. cbn. congruence.
Qed.

Lemma top_rows_aligned (argsort : list float → list nat) (idx : index)
    (dim : nat) (query : list float) (top_k : Z) :
  sorts float_lt argsort →
  aligned idx dim →
  length query = dim →
  ∃ rows,
    top_rows argsort idx query top_k = Some rows
    ∧ NoDup rows
    ∧ (∀ i, i ∈ rows → (i < length (documents idx))%nat)
    ∧ len rows
      = (if bool_decide (0 < top_k) then top_k `min` len (documents idx)
         else len (documents idx) - (- top_k) `min` len (documents idx)).
Proof.
  intros Hsorts (table & Htable & Hrows & Hlen & Hdim & _) Hquery.
  destruct (cosine_similarity_count query table dim Hrows Hdim Hquery)
    as (similarities & Hsims & Hcount).
  unfold top_rows. rewrite Htable. cbn. rewrite Hsims.
  destruct (top_indices_ranked float_lt argsort similarities top_k Hsorts)
    as (_ & Hnodup & Hbound & Hk & _).
  eexists. split; [done|].
  unfold len in *. rewrite Hcount, Hlen in *. done.
Qed.

(** X16: how many rows a search selects.  On an index that is in line, for
    a query of the dimension of the table and with any [np.argsort] that
    keeps its promise, [search_index] selects distinct rows of the index:
    [top_k] of them, or all rows when there are fewer; for [top_k = 0] it
    selects every row, not none, and for a negative [top_k] all rows but
    the [-top_k] least similar. *)
Theorem search_selects_top_k (argsort : list float → list nat) (idx : index)
    (dim : nat) (query : list float) (top_k : Z) :
  sorts float_lt argsort →
  aligned idx dim →
  length query = dim →
  ∃ rows,
    top_rows argsort idx query top_k = Some rows
    ∧ NoDup rows
    ∧ (∀ i, i ∈ rows → (i < length (documents idx))%nat)
    ∧ len rows
      = (if bool_decide (0 < top_k) then top_k `min` len (documents idx)
         else len (documents idx) - (- top_k) `min` len (documents idx)).
Proof. apply top_rows_aligned. Qed.


(** X18: a search without a resident index goes to the persisted one.
    When the resident index is not initialized, [search_index] answers as
    it does with the persisted index resident, and the persisted index is
    resident after the call; when there is no persisted index either, it
    returns nothing, leaves the index as it was and sends no request. *)
Theorem search_loads_persisted_index (env : Env) (query : text) (top_k : Z)
    (include_metadata : bool) (idx loaded : index) (disk : option index) :
  initialized idx = false →
  initialized loaded = true →
  search_index env query top_k include_metadata idx (Some loaded)
  = search_index env query top_k include_metadata loaded disk
  ∧ (search_index env query top_k include_metadata idx (Some loaded)).1.2
    = loaded
  ∧ search_index env query top_k include_metadata idx None
    = (None, idx,
       [LogWarning "Index not initialized. Please create an index first."]).
Proof.
  intros Hidx Hloaded. unfold search_index, load_index.
  rewrite Hidx, Hloaded. cbn [negb].
  split_and!; [done| |done].
  by destruct (match embeddings_create env [query] with
               | Ok (query_embedding :: _) => _
               | _ => None
               end).
Qed.

Lemma doc_rows_not_empty (doc : Doc) : doc_rows doc ≠ [].
Proof. unfold doc_rows. by destruct (doc_chunks doc). Qed.

Lemma flat_map_nil_iff {A B} (f : A → list B) (l : list A) :
  flat_map f l = [] ↔ Forall (λ x, f x = []) l.
Proof.
  induction l as [|x l IH]; cbn [flat_map].
  - split; [constructor|done].
  - by rewrite app_nil, Forall_cons, IH.
Qed.

Lemma process_document_with_text (env : Env) (file_path : string) :
  doc_processed (process_document env file_path) = true
  ↔ ¬ given_up env file_path.
Proof.
  unfold process_document, given_up, no_text.
  destruct (extract_text_from_file env file_path) as [[|c t]|].
  - split; [done|]. intros Hno. exfalso. apply Hno. left. by right.
  - set (t' := c :: t).
    rewrite hierarchical_chunking_windows by lia.
    unfold summary_of, keywords_of.
    destruct (config env) eqn:Hconfig; cbn [load_config fst bind].
    + repeat case_bool_decide; cbn; (split; [|done]);
        by intros _ [[?|?]|[? _]].
    + repeat case_bool_decide; cbn; (split; [|done]);
        by intros _ [[?|?]|[? _]].
    + repeat case_bool_decide; cbn; try (exfalso; lia).
      * split; [|done].
        intros _ [[?|?]|(_ & t0 & [= <-] & ?)]; [done|done|lia].
      * split; [done|]. intros Hno. exfalso. apply Hno. right.
        split; [done|]. exists t'. split; [done|lia].
      * split; [done|]. intros Hno. exfalso. apply Hno. right.
        split; [done|]. exists t'. split; [done|lia].
  - split; [done|]. intros Hno. exfalso. apply Hno. left. by left.
Qed.

Lemma documents_found_given_up (env : Env) (files : list string) :
  Forall (given_up env) files → documents_found env true files = [].
Proof.
  intros Hfiles. unfold documents_found, collect_rows, process_documents_batch.
  destruct files as [|f files]; [done|].
  destruct (truthy (api_key env)); [|done]. cbn [fst snd].
  replace (filter _ _) with (@nil Doc); [done|].
  symmetry. induction Hfiles as [|g rest Hg _ IH]; [done|].
  cbn [map]. rewrite filter_cons_False; [done|].
  rewrite process_document_with_text. by intros Hno.
Qed.

Lemma file_rows_none_iff (env : Env) (file_path : string) :
  file_rows env file_path = []
  ↔ ∀ t, extract_text_from_file env file_path = Some t → (length t < 50)%nat.
Proof.
  unfold file_rows.
  destruct (extract_text_from_file env file_path) as [t|];
    [|by split].
  assert (∀ chunks : list text,
            imap (λ j c, (c, chunk_id file_path j,
                          Build_Meta (Some file_path)
                            (Some (path_name file_path))
                            None (Some (Z.of_nat j)) None)) chunks = []
            ↔ chunks = []) as Himap.
  { intros [|c chunks]; [done|]. split; intros Heq; discriminate. }
  rewrite chunk_text_windows by lia.
  destruct t as [|c t].
  - split; [|done]. intros _ t' [= <-]. cbn. lia.
  - rewrite Himap.
    rewrite (no_window_kept (c :: t) (Z.to_nat 500) (Z.to_nat (500 - 100)))
      by lia.
    split.
    + intros [?|?] t' [= <-]; [done|lia].
    + intros Hshort. left. by apply Hshort.
Qed.


(** X20: with advanced processing, [create_index] finds no document in a
    list of files exactly when there is no API key or every file is given
    up.  With a key, every file with text gives at least one row, however
    short the text, unless [config.json] is missing and cannot be created:
    then the [load_config()] of the summary or keyword call raises for a
    text of 200 characters or more and the file is dropped, while shorter
    texts are still indexed. *)
Theorem advanced_processing_keeps_every_text (env : Env)
    (files : list string) :
  documents_found env true files = []
  ↔ api_key env = ""
    ∨ Forall (λ file,
                no_text env file
                ∨ (config env = ConfigBlocked
                   ∧ ∃ t, extract_text_from_file env file = Some t
                          ∧ 200 ≤ len t))
             files.
Proof.
  split; [|intros [Hkey|Hnone]].
  - intros Hfound.
    destruct (decide (api_key env = "")) as [|Hkey]; [by left|right].
    unfold documents_found, collect_rows, process_documents_batch in Hfound.
    destruct files as [|file files]; [done|].
    assert (truthy (api_key env) = true) as Htruthy
      by by destruct (api_key env).
    rewrite Htruthy in Hfound. cbn [fst] in Hfound.
    apply fmap_nil_inv, fmap_nil_inv, flat_map_nil_iff in Hfound.
    apply Forall_forall. intros f Hf.
    destruct (doc_processed (process_document env f)) eqn:Hprocessed.
    + exfalso.
      assert (process_document env f
              ∈ filter (λ doc, doc_processed doc = true)
                       (map (process_document env) (file :: files))) as Hin.
      { apply list_elem_of_filter. split; [done|].
        by apply (list_elem_of_fmap_2 (process_document env)). }
      rewrite Forall_forall in Hfound.
      by apply (doc_rows_not_empty (process_document env f)), Hfound.
    + pose proof (process_document_with_text env f) as Hiff.
      rewrite Hprocessed in Hiff. unfold given_up in Hiff.
      destruct (extract_text_from_file env f) as [[|c t]|] eqn:Htext;
        [left; by right| |left; by left].
      right.
      destruct (decide (200 ≤ len (c :: t))) as [Hl|Hl], (config env) eqn:Hc;
        try (split; [done|]; by exists (c :: t)).
      all: exfalso; assert (false = true) as Habsurd; [|done].
      all: apply Hiff; unfold no_text;
        intros [[?|?]|(? & t0 & [= <-] & ?)]; first [congruence|lia].
  - unfold documents_found, collect_rows, process_documents_batch.
    destruct files; [done|]. by rewrite Hkey.
  - by apply documents_found_given_up.
Qed.

End SearchProperties.

Section IndexWitnesses.
Import Numpy Chunker Index.

Lemma resident_aligned : aligned resident 2.
Proof.
  exists [[1; 0]; [2; 0]; [0; 1]]%float.
  split_and!; [done|done|done|by repeat constructor|].
  intros i Hi. cbn in Hi.
  destruct i as [|[|[|i]]]; [vm_compute; by eexists..|lia].
Qed.

Lemma batched_embedding_keeps_row_order_witness :
  embed_batches shelf (batches_of (replicate 25 sixty_chars))
  = (Ok ((λ _, [1; 0]%float) <$> replicate 25 sixty_chars),
     EmbeddingsCreate <$> batches_of (replicate 25 sixty_chars)).
Proof.
  apply (batched_embedding_keeps_row_order shelf (λ _, [1; 0]%float)).
  intros batch. reflexivity.
Defined.


Lemma failed_embedding_keeps_index_witness :
  (create_index offline "docs" false resident (Some resident)).1
  = (resident, Some resident)
  ∧ (WriteFile "index.pkl"
     ∉ (create_index offline "docs" false resident (Some resident)).2)
  ∧ (WriteFile "index_summary.json"
     ∉ (create_index offline "docs" false resident (Some resident)).2).
Proof.
  apply (failed_embedding_keeps_index offline "docs" false resident
           (Some resident) [sixty_chars] (ServiceError "unreachable"));
    [vm_compute; by left|reflexivity].
Defined.

Lemma search_selects_top_k_witness :
  ∃ rows,
    top_rows (stable_argsort float_lt) resident [1; 0]%float 2 = Some rows
    ∧ NoDup rows
    ∧ (∀ i, i ∈ rows → (i < length (documents resident))%nat)
    ∧ len rows
      = (if bool_decide (0 < 2) then 2 `min` len (documents resident)
         else len (documents resident) - (- 2) `min` len (documents resident)).
Proof.
  apply (search_selects_top_k (stable_argsort float_lt) resident 2
           [1; 0]%float 2);
    [apply stable_argsort_sorts, _|apply resident_aligned|reflexivity].
Defined.


Lemma search_loads_persisted_index_witness :
  search_index shelf (String.list_ascii_of_string "which letter?") 3 true
    initial_index (Some resident)
  = search_index shelf (String.list_ascii_of_string "which letter?") 3 true
      resident None
  ∧ (search_index shelf (String.list_ascii_of_string "which letter?") 3 true
       initial_index (Some resident)).1.2
    = resident
  ∧ search_index shelf (String.list_ascii_of_string "which letter?") 3 true
      initial_index None
    = (None, initial_index,
       [LogWarning "Index not initialized. Please create an index first."]).
Proof.
  apply (search_loads_persisted_index shelf
           (String.list_ascii_of_string "which letter?") 3 true
           initial_index resident None); reflexivity.
Defined.

End IndexWitnesses.

(** ** Keywords and summaries *)

Section KeywordFacts.
Import DocumentProcessor.

#[local] Abbreviation chars := String.list_ascii_of_string.

Lemma rstrip_idempotent (s : string) : rstrip (rstrip s) = rstrip s.
Proof.
  induction s as [|c s IH]; [done|]. cbn [rstrip].
  destruct (rstrip s) as [|d r] eqn:Hs.
  - destruct (is_space c) eqn:Hc; [done|]. cbn. by rewrite Hc.
  - cbn [rstrip] in *. by rewrite IH.
Qed.

Lemma lstrip_first (s : string) :
  lstrip s = "" ∨ ∃ c r, lstrip s = String c r ∧ is_space c = false.
Proof.
  induction s as [|c s IH]; [by left|]. cbn.
  destruct (is_space c) eqn:Hc; [done|]. right. by exists c, s.
Qed.

Lemma rstrip_first (c : ascii) (s : string) :
  is_space c = false → ∃ r, rstrip (String c s) = String c r.
Proof.
  intros Hc. cbn. rewrite Hc. destruct (rstrip s); by eexists.
Qed.

(** A trimmed string is empty or starts with a character that is not
    white space. *)
Lemma strip_first (s : string) :
  strip s = "" ∨ ∃ c r, strip s = String c r ∧ is_space c = false.
Proof.
  unfold strip. destruct (lstrip_first s) as [->|(c & r & -> & Hc)];
    [by left|right].
  destruct (rstrip_first c r Hc) as [r' ->]. by exists c, r'.
Qed.

Lemma strip_idempotent (s : string) : strip (strip s) = strip s.
Proof.
  destruct (strip_first s) as [->|(c & r & Hs & Hc)]; [done|].
  rewrite Hs. unfold strip at 1. cbn [lstrip]. rewrite Hc, <- Hs.
  unfold strip. apply rstrip_idempotent.
Qed.

Lemma lstrip_chars (s : string) (c : ascii) :
  c ∈ chars (lstrip s) → c ∈ chars s.
Proof.
  induction s as [|d s IH]; [done|]. cbn.
  destruct (is_space d); [|done]. intros Hc. right. by apply IH.
Qed.

Lemma rstrip_chars (s : string) (c : ascii) :
  c ∈ chars (rstrip s) → c ∈ chars s.
Proof.
  induction s as [|d s IH]; [done|]. cbn.
  destruct (rstrip s) as [|e r].
  - destruct (is_space d); cbn; [by intros ?%elem_of_nil|].
    intros [->|?%elem_of_nil]%elem_of_cons; [by left|done].
  - intros [->|Hc]%elem_of_cons; [by left|]. right. by apply IH.
Qed.

Lemma strip_chars (s : string) (c : ascii) :
  c ∈ chars (strip s) → c ∈ chars s.
Proof. intros Hc. by apply lstrip_chars, rstrip_chars. Qed.

(** No piece of a split holds the separator. *)
Lemma split_pieces (sep : ascii) (s : string) :
  Forall (λ piece, sep ∉ chars piece) (split sep s).
Proof.
  induction s as [|c s IH]; cbn [split].
  - repeat constructor. apply not_elem_of_nil.
  - destruct (ascii_dec c sep) as [->|Hc].
    + constructor; [apply not_elem_of_nil|done].
    + destruct (split sep s) as [|a more].
      * repeat constructor. cbn.
        intros [->|?%elem_of_nil]%elem_of_cons; done.
      * apply Forall_cons in IH as [Ha Hmore]. constructor; [|done].
        cbn. intros [->|?]%elem_of_cons; done.
Qed.

(** What makes a keyword clean: it is not empty, has no white space at
    either end and holds no comma. *)
Lemma parse_keywords_clean (keyword_text : string) :
  Forall (λ k, k ≠ "" ∧ strip k = k ∧ ","%char ∉ chars k)
         (parse_keywords keyword_text).
Proof.
  unfold parse_keywords. cbv zeta.
  generalize (if startswith (strip keyword_text) "Keywords:"
              then strip (str_drop (String.length "Keywords:")
                            (strip keyword_text))
              else strip keyword_text).
  intros body. pose proof (split_pieces "," body) as Hpieces.
  induction Hpieces as [|piece pieces Hpiece _ IH]; [constructor|].
  rewrite omap_cons_match.
  destruct (truthy (strip piece)) eqn:Hk; [|done].
  constructor; [|done]. split_and!.
  - by destruct (strip piece).
  - apply strip_idempotent.
  - intros Hcomma. by apply Hpiece, strip_chars.
Qed.

(** X21: the keywords [extract_keywords] returns are clean, whatever the
    service replies: no keyword is empty, none starts or ends with white
    space, and none holds a comma. *)
Theorem extracted_keywords_are_clean (api_key : string) (remote : Client)
    (t : Chunker.text) (client : option Client) (min_length : Z) :
  Forall (λ k, k ≠ "" ∧ strip k = k ∧ ","%char ∉ chars k)
         (extract_keywords api_key remote t client min_length).1.
Proof.
  unfold extract_keywords.
  case_bool_decide; [constructor|].
  destruct (Flow.resolve_client api_key remote client) as [[c|] log];
    [|constructor].
  destruct (c (keyword_prompt t)); [apply parse_keywords_clean|constructor].
Qed.

End KeywordFacts.

Section KeywordRendering.
Import DocumentProcessor.

#[local] Abbreviation chars := String.list_ascii_of_string.
#[local] Abbreviation clean :=
  (λ k : string, k ≠ "" ∧ strip k = k ∧ ","%char ∉ chars k).

Lemma str_app_cons (x : ascii) (a b : string) :
  String x a +:+ b = String x (a +:+ b).
Proof. done. Qed.

Lemma str_app_assoc (a b c : string) : (a +:+ b) +:+ c = a +:+ (b +:+ c).
Proof.
  induction a as [|x a IH]; [done|]. by rewrite !str_app_cons, IH.
Qed.

Lemma chars_app (a b : string) : chars (a +:+ b) = chars a ++ chars b.
Proof.
  induction a as [|x a IH]; [done|]. rewrite str_app_cons. cbn.
  by rewrite IH.
Qed.

Lemma split_no_sep (sep : ascii) (s : string) :
  sep ∉ chars s → split sep s = [s].
Proof.
  induction s as [|c s IH]; [done|]. cbn.
  intros [Hc Hs]%not_elem_of_cons.
  destruct (ascii_dec c sep) as [->|_]; [done|]. by rewrite IH.
Qed.

Lemma split_at_sep (sep : ascii) (a b : string) :
  sep ∉ chars a → split sep (a +:+ String sep b) = a :: split sep b.
Proof.
  induction a as [|c a IH].
  - intros _. change ("" +:+ String sep b) with (String sep b). cbn.
    by destruct (ascii_dec sep sep).
  - intros [Hc Ha]%not_elem_of_cons. rewrite str_app_cons. cbn.
    destruct (ascii_dec c sep) as [->|_]; [done|]. by rewrite IH.
Qed.

Lemma rstrip_app (s r : string) :
  rstrip r ≠ "" → rstrip (s +:+ r) = s +:+ rstrip r.
Proof.
  intros Hr. induction s as [|c s IH]; [done|].
  rewrite !str_app_cons. cbn [rstrip]. rewrite IH.
  destruct (s +:+ rstrip r) as [|d x] eqn:Hx; [|done].
  destruct s; [|done]. by change (rstrip r = "") in Hx.
Qed.

Lemma trimmed_first (k : string) :
  strip k = k → k ≠ "" → ∃ c r, k = String c r ∧ is_space c = false.
Proof.
  intros Hk Hne. destruct (strip_first k) as [He|(c & r & Hs & Hc)].
  - by rewrite Hk in He.
  - rewrite Hk in Hs. by exists c, r.
Qed.

Lemma trimmed_rstrip (k : string) : strip k = k → rstrip k = k.
Proof.
  intros Hk. destruct (decide (k = "")) as [->|Hne]; [done|].
  destruct (trimmed_first k Hk Hne) as (c & r & -> & Hc).
  unfold strip in Hk. cbn [lstrip] in Hk. by rewrite Hc in Hk.
Qed.

Lemma join_trimmed (k : string) (ks : list string) :
  Forall clean (k :: ks) →
  String.concat ", " (k :: ks) ≠ ""
  ∧ lstrip (String.concat ", " (k :: ks)) = String.concat ", " (k :: ks)
  ∧ rstrip (String.concat ", " (k :: ks)) = String.concat ", " (k :: ks).
Proof.
  revert k. induction ks as [|k' ks IH]; intros k Hclean.
  - apply Forall_cons in Hclean as [(Hne & Hk & _) _]. cbn [String.concat].
    destruct (trimmed_first k Hk Hne) as (c & r & -> & Hc).
    split_and!; [done|by cbn; rewrite Hc|by apply trimmed_rstrip].
  - apply Forall_cons in Hclean as [(Hne & Hk & _) Hrest].
    destruct (IH k' Hrest) as (Hjoin & _ & Hright).
    change (String.concat ", " (k :: k' :: ks))
      with (k +:+ ", " +:+ String.concat ", " (k' :: ks)).
    destruct (trimmed_first k Hk Hne) as (c & r & -> & Hc).
    rewrite str_app_cons.
    split_and!; [done|by cbn; rewrite Hc|]. rewrite <- str_app_cons.
    assert (rstrip (", " +:+ String.concat ", " (k' :: ks))
            = ", " +:+ String.concat ", " (k' :: ks)) as Htail.
    { rewrite rstrip_app by by rewrite Hright. by rewrite Hright. }
    rewrite rstrip_app by by rewrite Htail. by rewrite Htail.
Qed.

Lemma keep_split_join (k : string) (ks : list string) (pad : string) :
  Forall clean (k :: ks) →
  all_space pad → ","%char ∉ chars pad →
  omap (λ k, if truthy (strip k) then Some (strip k) else None)
       (split "," (pad +:+ String.concat ", " (k :: ks)))
  = k :: ks.
Proof.
  revert k pad. induction ks as [|k' ks IH]; intros k pad Hclean Hpad Hcomma.
  - apply Forall_cons in Hclean as [(Hne & Hk & Hfree) _].
    cbn [String.concat]. rewrite split_no_sep.
    + rewrite omap_cons_match, strip_padding_l, Hk by done.
      by destruct k.
    + rewrite chars_app. by apply not_elem_of_app.
  - apply Forall_cons in Hclean as [(Hne & Hk & Hfree) Hrest].
    change (String.concat ", " (k :: k' :: ks))
      with (k +:+ String "," (" " +:+ String.concat ", " (k' :: ks))).
    rewrite <- str_app_assoc, split_at_sep
      by (rewrite chars_app; by apply not_elem_of_app).
    rewrite omap_cons_match, strip_padding_l, Hk by done.
    destruct k as [|c r]; [done|]. cbn [truthy]. f_equal.
    apply IH; [done|by repeat constructor|].
    cbn. intros [?|?%elem_of_nil]%elem_of_cons; done.
Qed.

(** X22: parsing undoes the rendering of keywords.  [search_index] shows
    the keywords of a document joined by a comma and a blank; read back the
    way [extract_keywords] reads a reply, the joined text gives the same
    keywords in the same order, provided that they are clean (not empty,
    trimmed, free of commas) and the text does not open with the label
    [Keywords:], which the parser takes off. *)
Theorem parse_keywords_inverts_join (kws : list string) :
  Forall (λ k, k ≠ "" ∧ strip k = k ∧ ","%char ∉ chars k) kws →
  startswith (String.concat ", " kws) "Keywords:" = false →
  parse_keywords (String.concat ", " kws) = kws.
Proof.
  intros Hclean Hlabel. destruct kws as [|k ks]; [done|].
  destruct (join_trimmed k ks Hclean) as (_ & Hleft & Hright).
  unfold parse_keywords. cbv zeta.
  assert (strip (String.concat ", " (k :: ks)) = String.concat ", " (k :: ks))
    as -> by (unfold strip; by rewrite Hleft, Hright).
  rewrite Hlabel.
  apply (keep_split_join k ks ""); [done|constructor|apply not_elem_of_nil].
Qed.

End KeywordRendering.

Section ServicePrompts.
Import DocumentProcessor.

Lemma slice_prefix {A} (s : list A) (n : Z) :
  0 ≤ n → slice s 0 n = take (Z.to_nat n) s.
Proof. intros Hn. apply (slice_window s 0 n Hn). Qed.



End ServicePrompts.



Lemma parse_keywords_inverts_join_witness :
  DocumentProcessor.parse_keywords
    (String.concat ", " ["retrieval"; "state machine"; "Keywords"])
  = ["retrieval"; "state machine"; "Keywords"].
Proof.
  apply (parse_keywords_inverts_join
           ["retrieval"; "state machine"; "Keywords"]); [|reflexivity].
  repeat constructor; try done;
    apply (bool_decide_unpack _); vm_compute; exact I.
Defined.

(** ** The stage machine: the turn limit *)

Section TurnLimit.
Import Flow.
Context (api_key : string) (remote : Client).

(** X25: the turn limit bounds the stay in a stage with one exit.  In a
    stage that is stored under its own id and declares a single next
    stage, a conversation whose turns are all processed leaves for that
    stage before the count of its turns passes [max_turns], whatever the
    messages and whatever the service replies: some turn of the sequence
    ends in the next stage with a fresh counter, the stage left being
    added to the history. *)
Theorem turn_limit_bounds_stay (flow : ConversationFlow)
    (stage : ConversationStage) (next : string)
    (inputs : list (string * option Client)) (st : ConversationState) :
  stages flow !! stage_id stage = Some stage →
  current_stage_id st = Some (stage_id stage) →
  next_stages stage = [next] →
  truthy next = true →
  Forall (λ input, is_Some (resolve_client api_key remote input.2).1) inputs →
  inputs ≠ [] →
  max_turns stage ≤ turns_in stage st + len inputs →
  ∃ pre post,
    inputs = pre ++ post
    ∧ current_stage_id (run_turns api_key remote flow pre st) = Some next
    ∧ stage_turns (run_turns api_key remote flow pre st) !! Some next = Some 0
    ∧ (truthy (stage_id stage) = true →
       completed_stages (run_turns api_key remote flow pre st)
       = completed_stages st ++ [stage_id stage]).
Proof.
  intros Hstored Hcur Hnext Htruthy Hclients.
  revert st Hcur.
  induction Hclients as [|[msg client] rest Hclient _ IH];
    intros st Hcur Hsome Hbound; [done|].
  assert (get_stage flow (current_stage_id st) = Some stage) as Hstage
    by by rewrite Hcur.
  cbn [snd] in Hclient.
  destruct (resolve_client api_key remote client) as [[c|] log0] eqn:Hc;
    [|by destruct Hclient].
  destruct (check_stage_completion api_key remote stage msg
              (increment_turns st) (Some c)) as [verdict log] eqn:Hcheck.
  destruct (verdict.1 && truthy_opt verdict.2) eqn:Hverdict.
  - destruct verdict as [[|] [next'|]]; try done. cbn in Hverdict.
    assert (next' = next) as ->.
    { pose proof (check_declared api_key remote stage msg (increment_turns st)
                    (Some c) next') as Hdeclared.
      rewrite Hcheck, Hnext in Hdeclared.
      by apply list_elem_of_singleton, Hdeclared. }
    exists [(msg, client)], rest. cbn [run_turns].
    rewrite (turn_advances api_key remote msg st flow client c stage next
               log0 log) by done.
    cbn. rewrite Hcur. split_and!; [done|done|by rewrite lookup_insert_eq|].
    by intros ->.
  - assert (¬ max_turns stage ≤ turns_in stage (increment_turns st)) as Hleft.
    { intros Hmax.
      rewrite (check_forced api_key remote stage msg _ _ next) in Hcheck
        by done.
      injection Hcheck as <- <-. cbn in Hverdict. by rewrite Htruthy in Hverdict. }
    rewrite increment_turns_counter in Hleft by done.
    unfold len in Hbound. cbn [length] in Hbound.
    destruct (IH (increment_turns st)) as (pre & post & -> & Hin & Hzero & Hdone).
    + done.
    + intros ->. cbn in Hbound. lia.
    + rewrite increment_turns_counter by done. unfold len. lia.
    + exists ((msg, client) :: pre), post. cbn [run_turns].
      rewrite (turn_stays api_key remote msg st flow client c stage verdict
                 log0 log) by done.
      by cbn [fst snd].
Qed.

End TurnLimit.

Lemma turn_limit_bounds_stay_witness :
  ∃ pre post,
    [("Hello", None); ("Are you there?", None); ("It broke", None)]
    = pre ++ post
    ∧ Flow.current_stage_id
        (Flow.run_turns "key" Flow.always_incomplete Flow.customer_flow pre
           (Flow.start_state Flow.customer_flow))
      = Some "problem_identification"
    ∧ Flow.stage_turns
        (Flow.run_turns "key" Flow.always_incomplete Flow.customer_flow pre
           (Flow.start_state Flow.customer_flow))
      !! Some "problem_identification" = Some 0
    ∧ (truthy (Flow.stage_id Flow.greeting_stage) = true →
       Flow.completed_stages
         (Flow.run_turns "key" Flow.always_incomplete Flow.customer_flow pre
            (Flow.start_state Flow.customer_flow))
       = Flow.completed_stages (Flow.start_state Flow.customer_flow)
         ++ [Flow.stage_id Flow.greeting_stage]).
Proof.
  apply (turn_limit_bounds_stay "key" Flow.always_incomplete
           Flow.customer_flow Flow.greeting_stage "problem_identification"
           [("Hello", None); ("Are you there?", None); ("It broke", None)]
           (Flow.start_state Flow.customer_flow));
    [by vm_compute|by vm_compute|done|done| |done|by vm_compute].
  repeat constructor; by eexists.
Defined.

(** ** Cosine similarity of a zero query *)

Section ZeroQuery.
Import Numpy.
Open Scope float_scope.

Lemma mul_nan_r (x y : float) :
  Prim2SF y = S754_nan → Prim2SF (x * y) = S754_nan.
Proof.
  rewrite FloatAxioms.mul_spec. unfold SF64mul, SFmul. intros ->.
  by destruct (Prim2SF x).
Qed.

Lemma add_nan_l (x y : float) :
  Prim2SF x = S754_nan → Prim2SF (x + y) = S754_nan.
Proof.
  rewrite FloatAxioms.add_spec. unfold SF64add, SFadd. by intros ->.
Qed.

Lemma add_nan_r (x y : float) :
  Prim2SF y = S754_nan → Prim2SF (x + y) = S754_nan.
Proof.
  rewrite FloatAxioms.add_spec. unfold SF64add, SFadd. intros ->.
  by destruct (Prim2SF x) as [[]| | |].
Qed.

Lemma div_nan_l (x y : float) :
  Prim2SF x = S754_nan → Prim2SF (x / y) = S754_nan.
Proof.
  rewrite FloatAxioms.div_spec. unfold SF64div, SFdiv. by intros ->.
Qed.

Lemma sum_stays_nan (pairs : list (float * float)) (acc : float) :
  Prim2SF acc = S754_nan →
  Prim2SF (foldl (λ acc p, add acc (mul p.1 p.2)) acc pairs) = S754_nan.
Proof.
  revert acc. induction pairs as [|p pairs IH]; intros acc Hacc; [done|].
  cbn [foldl]. apply IH. by apply add_nan_l.
Qed.

(** The dot product of a row with a vector of NaNs of its length. *)
Lemma dot_nan_vector (row other : list float) :
  row ≠ [] → length row = length other →
  Forall (λ y, Prim2SF y = S754_nan) other →
  Prim2SF (dot row other) = S754_nan.
Proof.
  intros Hrow Hlen Hother.
  destruct row as [|x row]; [done|]. destruct other as [|y other]; [done|].
  apply Forall_cons in Hother as [Hy _].
  unfold dot. cbn [zip zip_with foldl]. apply sum_stays_nan.
  by apply add_nan_r, mul_nan_r.
Qed.

(** X27: a query of zeros gives no ranking.  When every entry of the query
    embedding is zero, [cosine_similarity] on [float64] returns NaN for
    every row, whatever the rows hold, and does not raise. *)
Theorem zero_query_similarities_are_nan (query : list float)
    (table : list (list float)) :
  query ≠ [] →
  Forall (λ x, PrimFloat.is_zero x = true) query →
  table ≠ [] →
  Forall (λ row, length row = length query) table →
  ∃ similarities,
    cosine_similarity query table = Ok similarities
    ∧ length similarities = length table
    ∧ Forall (λ s, PrimFloat.is_nan s = true) similarities.
Proof.
  intros Hquery Hzero Hrows Hshape.
  rewrite cosine_similarity_rows by done.
  eexists. split_and!; [done|by rewrite length_map|].
  apply Forall_fmap, Forall_forall. intros row Hrow.
  apply (proj1 (Forall_forall _ _) Hshape) in Hrow.
  apply is_nan_of, div_nan_l, dot_nan_vector.
  - destruct row; [|done]. by destruct query.
  - by rewrite length_map.
  - apply Forall_fmap, Forall_forall. intros x Hx.
    apply div_by_zero_nan.
    + apply (proj1 (Forall_forall _ _) Hzero), is_zero_class_of in Hx.
      by destruct (Prim2SF x).
    + by apply norm_zero_row.
Qed.

End ZeroQuery.

Section SimilarityWitnesses.
Import Numpy.

Lemma zero_query_similarities_are_nan_witness :
  ∃ similarities,
    Numpy.cosine_similarity [0; 0]%float [[1; 0]; [2; 0]; [0; 1]]%float
    = Ok similarities
    ∧ length similarities = length [[1; 0]; [2; 0]; [0; 1]]%float
    ∧ Forall (λ s, PrimFloat.is_nan s = true) similarities.
Proof.
  apply (zero_query_similarities_are_nan [0; 0]%float
           [[1; 0]; [2; 0]; [0; 1]]%float);
    [done|by repeat constructor|done|by repeat constructor].
Defined.

End SimilarityWitnesses.
